(** * eventer: promoting functions to events with before/after/condition hooks

    A shallow embedding of [eventer.py].

    - Python objects live in a heap indexed by their identity ([id(obj)]).
      The module-level dictionary [_events] maps the identity of an event
      wrapper to a tuple of three references to list objects, so that
      [_events[id(ev)][0].append(f)] is an update of a list object in the
      heap, seen by whoever holds a reference to it.
    - An object nothing refers to may be reclaimed, and its identity handed
      out again.  [_events] holds identities, not wrappers: the record of a
      wrapper that was reclaimed stays in [_events] under its identity.
    - Callables are the callables of the host program, which may or may not
      carry a [__name__], and the closures [calls_subs] and [voided] this
      module builds.  Callables of the host program are opaque: they act on
      the host's own state [World], return a value or raise, and do not
      register hooks or promote functions while an event is being
      dispatched.
    - Values are [None], booleans, integers, strings and references to
      objects; their truth test does not raise.
    - [calls_subs] is instrumented: next to its outcome it gives the list of
      the calls it made, in the order it made them.
    - Calls may nest without bound (an event may be a hook of an event), so
      [call] takes fuel; [call_mono] shows that the outcome of a call that
      comes to an end does not depend on it. *)

From stdpp Require Import base gmap sets list strings.
From Stdlib Require Import ZArith.

Local Open Scope string_scope.
Local Open Scope list_scope.

(** ** Python values and objects *)

(** [id(obj)]: the identity of an object. *)
Definition ref := positive.

Inductive value :=
| VNone
| VBool (b : bool)
| VInt (z : Z)
| VStr (s : string)
| VRef (r : ref).

(** [*args, **kwargs] *)
Record args := Args {
  positional : list value;
  keywords : list (string * value)
}.

Definition no_args : args := Args [] [].

Inductive exn :=
| EventNotRegistered (msg : string)
| KeyError (key : ref)
| TypeError
| AttributeError
| HostError (payload : value).

(** The three hook lists of an event record, in tuple order. *)
Inductive hook := Before | After | Condition.

(** What a dispatch is doing when it makes a call. *)
Inductive phase := InCondition | InBefore | InBody | InAfter.

(** One call made by the dispatcher: in which phase, to whom, with what. *)
Record call_event := Called {
  ce_phase : phase;
  ce_callee : ref;
  ce_args : args
}.

Definition hook_phase (k : hook) : phase :=
  match k with
  | Before => InBefore
  | After => InAfter
  | Condition => InCondition
  end.

Global Instance hook_eq_dec : EqDecision hook.
Proof. solve_decision. Defined.
Global Instance phase_eq_dec : EqDecision phase.
Proof. solve_decision. Defined.

Section Eventer.

Context {World : Type}.

(** Identity handed to a newly created object; Python promises only that it
    differs from the identity of every object alive. *)
Variable alloc : gset ref → ref.
Hypothesis alloc_fresh : ∀ X, alloc X ∉ X.

(** Objects on the heap.  [Function] is a callable of the host program:
    a function, with its [__name__], or a callable without one (a
    [functools.partial] object, an instance of a class with [__call__]).
    [CallsSubs] is the closure [calls_subs] built by [event(f)], [Voided]
    the closure [voided] built by [voidargs(f)], [PyList] a list object. *)
Inductive obj :=
| Function (name : option string)
    (code : args → World → (value + exn) * World)
| CallsSubs (name : string) (f : ref)
| Voided (name : string) (f : ref)
| PyList (items : list ref).

Record State := MkState {
  heap : gmap ref obj;
  _events : gmap ref (ref * ref * ref);
  world : World
}.

Definition set_world (st : State) (w : World) : State :=
  MkState (heap st) (_events st) w.

Definition set_heap (st : State) (h : gmap ref obj) : State :=
  MkState h (_events st) (world st).

(** Outcome of running a piece of code from a state. *)
Inductive Res (A : Type) :=
| Ok (a : A) (st : State)
| Err (e : exn) (st : State)
| Timeout.
Arguments Ok {A} a st.
Arguments Err {A} e st.
Arguments Timeout {A}.

(** [callable(o)] *)
Definition callable (o : obj) : bool :=
  match o with
  | Function _ _ | CallsSubs _ _ | Voided _ _ => true
  | PyList _ => false
  end.

Definition obj_name (o : obj) : option string :=
  match o with
  | Function name _ => name
  | CallsSubs name _ | Voided name _ => Some name
  | PyList _ => None
  end.

(** [r.__name__] *)
Definition getattr_name (st : State) (r : ref) : option string :=
  heap st !! r ≫= obj_name.

(** [bool(v)], as used by [not v]. *)
Definition truthy (st : State) (v : value) : bool :=
  match v with
  | VNone => false
  | VBool b => b
  | VInt z => negb (Z.eqb z 0)
  | VStr s => negb (String.eqb s "")
  | VRef r => match heap st !! r with
              | Some (PyList []) => false
              | _ => true
              end
  end.

(** ** Creating objects *)

Definition new_obj (o : obj) (st : State) : ref * State :=
  let r := alloc (dom (heap st)) in
  (r, set_heap st (<[r := o]> (heap st))).

(** [def name(...): ...] executed by the host program. *)
Definition def (name : string)
    (code : args → World → (value + exn) * World) (st : State) : ref * State :=
  new_obj (Function (Some name) code) st.

(** A callable without [__name__] made by the host program, such as
    [functools.partial(f)]. *)
Definition callable_object
    (code : args → World → (value + exn) * World) (st : State) : ref * State :=
  new_obj (Function None code) st.

(** The object [r] goes: nothing refers to it any more and Python reclaims
    it.  Its identity is free again. *)
Definition reclaim (r : ref) (st : State) : State :=
  set_heap st (delete r (heap st)).

(** ** Code that reads and writes the state, may raise, and records the
    calls it makes *)

Definition M (A : Type) : Type := State → list call_event * Res A.

Definition ret {A} (a : A) : M A := λ st, ([], Ok a st).

Definition raise {A} (e : exn) : M A := λ st, ([], Err e st).

Definition bind {A B} (m : M A) (k : A → M B) : M B := λ st,
  match m st with
  | (t, Ok a st') => let '(t', r) := k a st' in (t ++ t', r)
  | (t, Err e st') => (t, Err e st')
  | (t, Timeout) => (t, Timeout)
  end.

Notation "x ←' m ; k" := (bind m (λ x, k))
  (at level 20, m at level 100, k at level 200, only parsing).
Notation "m ;;' k" := (bind m (λ _, k))
  (at level 100, k at level 200, right associativity, only parsing).

(** The items of a list object, as a [for] loop over it sees them.  Nothing
    reachable from a dispatch appends to a list while it is being iterated
    (hooks are host functions, event wrappers or [voided] closures), so the
    loop runs over the items present when it starts. *)
Definition list_items (st : State) (l : ref) : option (list ref) :=
  match heap st !! l with
  | Some (PyList items) => Some items
  | _ => None
  end.

Definition iter (l : ref) : M (list ref) := λ st,
  match list_items st l with
  | Some items => ret items st
  | None => raise TypeError st
  end.

(** [_events[key]] *)
Definition getitem_events (key : ref) : M (ref * ref * ref) := λ st,
  match _events st !! key with
  | Some rec => ret rec st
  | None => raise (KeyError key) st
  end.

(** ** The dispatcher *)

Section Dispatch.

(** How a callable is called; [call] below ties the knot. *)
Variable invoke : ref → args → State → Res value.

(** [sub( *args, **kwargs)], recorded. *)
Definition call_sub (p : phase) (sub : ref) (a : args) : M value := λ st,
  ([Called p sub a], invoke sub a st).

(** [not v] *)
Definition not_ (v : value) : M bool := λ st, ([], Ok (negb (truthy st v)) st).

(** [for sub in conditions: if not sub( *args, **kwargs): return];
    [false] stands for the early [return]. *)
Fixpoint for_conditions (conditions : list ref) (a : args) : M bool :=
  match conditions with
  | [] => ret true
  | sub :: rest =>
      v ←' call_sub InCondition sub a;
      stop ←' not_ v;
      if (stop : bool) then ret false else for_conditions rest a
  end.

(** [for sub in subs: sub( *args, **kwargs)] *)
Fixpoint for_subs (p : phase) (subs : list ref) (a : args) : M unit :=
  match subs with
  | [] => ret tt
  | sub :: rest => call_sub p sub a ;;' for_subs p rest a
  end.

(** The closure [calls_subs] of [event(f)]; [self] is [id(calls_subs)]. *)
Definition calls_subs (self f : ref) (a : args) : M value :=
  rec ←' getitem_events self;
  let '(before, after, conditions) := rec in
  cs ←' iter conditions;
  go ←' for_conditions cs a;
  if (go : bool) then
    bs ←' iter before;
    for_subs InBefore bs a ;;'
    r ←' call_sub InBody f a;
    afs ←' iter after;
    for_subs InAfter afs a ;;'
    ret r
  else ret VNone.

(** The closure [voided] of [voidargs(f)]. *)
Definition voided (f : ref) (a : args) : M value := λ st,
  match invoke f no_args st with
  | Ok _ st' => ([], Ok VNone st')
  | Err e st' => ([], Err e st')
  | Timeout => ([], Timeout)
  end.

End Dispatch.

(** Calling an object.  A host function runs its code on the host state; the
    closures of this module run as above, their own calls one unit of fuel
    down.  Fuel bounds the nesting of calls (an event may be a hook of an
    event). *)
Fixpoint call (fuel : nat) (fn : ref) (a : args) (st : State) : Res value :=
  match fuel with
  | O => Timeout
  | S fuel' =>
      match heap st !! fn with
      | Some (Function _ code) =>
          match code a (world st) with
          | (inl v, w) => Ok v (set_world st w)
          | (inr e, w) => Err e (set_world st w)
          end
      | Some (CallsSubs _ f) => (calls_subs (call fuel') fn f a st).2
      | Some (Voided _ f) => (voided (call fuel') f a st).2
      | Some (PyList _) | None => Err TypeError st
      end
  end.

(** A call of the event [ev] by the host, with the calls the dispatcher made. *)
Definition dispatch (fuel : nat) (ev : ref) (a : args) (st : State)
    : list call_event * Res value :=
  match heap st !! ev with
  | Some (CallsSubs _ f) => calls_subs (call fuel) ev f a st
  | _ => ([], Err TypeError st)
  end.

(** ** Promotion *)

(** [event(f)] *)
Definition event (f : ref) (st : State) : ref * State :=
  (* @wraps(f) def calls_subs( *args, **kwargs): ... *)
  let name := default "calls_subs" (getattr_name st f) in
  let '(calls_subs_id, st) := new_obj (CallsSubs name f) st in
  (* _events[id(calls_subs)] = ([], [], []) *)
  let '(l0, st) := new_obj (PyList []) st in
  let '(l1, st) := new_obj (PyList []) st in
  let '(l2, st) := new_obj (PyList []) st in
  (calls_subs_id,
   MkState (heap st) (<[calls_subs_id := (l0, l1, l2)]> (_events st)) (world st)).

(** [voidargs(f)] *)
Definition voidargs (f : ref) (st : State) : ref * State :=
  (* @wraps(f) def voided( *args, **kwargs): ... *)
  new_obj (Voided (default "voided" (getattr_name st f)) f) st.

(** ** Registration *)

Definition not_registered_msg (name : string) : string :=
  ("Function `" ++ name ++ "` is not registered as an event. This can be resolved by adding the `@event` decorator to the function.")%string.

(** [l.append(x)] *)
Definition list_append (l x : ref) (st : State) : Res unit :=
  match heap st !! l with
  | Some (PyList items) =>
      Ok tt (set_heap st (<[l := PyList (items ++ [x])]> (heap st)))
  | _ => Err AttributeError st
  end.

(** [raise EventNotRegistered(f"Function `{ev.__name__}` is not ...")] *)
Definition raise_not_registered {A} (ev : ref) (st : State) : Res A :=
  match getattr_name st ev with
  | Some name => Err (EventNotRegistered (not_registered_msg name)) st
  | None => Err AttributeError st
  end.

(** The closure [decorator] of [run_before(ev, fn)]. *)
Definition run_before_decorator (ev f : ref) (st : State) : Res ref :=
  match _events st !! ev with
  | None => raise_not_registered ev st
  | Some (before, _, _) =>
      match list_append before f st with
      | Ok _ st' => Ok f st'
      | Err e st' => Err e st'
      | Timeout => Timeout
      end
  end.

(** The closure [decorator] of [run_after(ev, fn)]. *)
Definition run_after_decorator (ev f : ref) (st : State) : Res ref :=
  match _events st !! ev with
  | None => raise_not_registered ev st
  | Some (_, after, _) =>
      match list_append after f st with
      | Ok _ st' => Ok f st'
      | Err e st' => Err e st'
      | Timeout => Timeout
      end
  end.

(** The closure [decorator] of [condition_for(ev, fn)]. *)
Definition condition_for_decorator (ev f : ref) (st : State) : Res ref :=
  match _events st !! ev with
  | None => raise_not_registered ev st
  | Some (_, _, conditions) =>
      match list_append conditions f st with
      | Ok _ st' => Ok f st'
      | Err e st' => Err e st'
      | Timeout => Timeout
      end
  end.

(** A decorator: given the function below it, it returns what the name gets
    bound to. *)
Definition Decorator : Type := ref → State → Res ref.

(** [if fn is not None: decorator(fn)] followed by [return decorator] *)
Definition apply_if_given (decorator : Decorator) (fn : option ref)
    (st : State) : Res Decorator :=
  match fn with
  | Some f =>
      match decorator f st with
      | Ok _ st' => Ok decorator st'
      | Err e st' => Err e st'
      | Timeout => Timeout
      end
  | None => Ok decorator st
  end.

(** [run_before(ev, fn=None)] *)
Definition run_before (ev : ref) (fn : option ref) : State → Res Decorator :=
  apply_if_given (run_before_decorator ev) fn.

(** [run_after(ev, fn=None)] *)
Definition run_after (ev : ref) (fn : option ref) : State → Res Decorator :=
  apply_if_given (run_after_decorator ev) fn.

(** [condition_for(ev, fn=None)] *)
Definition condition_for (ev : ref) (fn : option ref) : State → Res Decorator :=
  apply_if_given (condition_for_decorator ev) fn.

(** ** Views of the state used in the statements *)

(** The list object of an event record that hook kind [k] appends to:
    [rec[0]], [rec[1]] or [rec[2]]. *)
Definition list_ref (k : hook) (rec : ref * ref * ref) : ref :=
  match k with
  | Before => rec.1.1
  | After => rec.1.2
  | Condition => rec.2
  end.

(** The hooks of kind [k] registered on [ev], in list order. *)
Definition hooks (st : State) (ev : ref) (k : hook) : option (list ref) :=
  _events st !! ev ≫= λ rec, list_items st (list_ref k rec).

(** [ev] is an event wrapper around the body [f]. *)
Definition is_event (st : State) (ev f : ref) : Prop :=
  ∃ name, heap st !! ev = Some (CallsSubs name f).

Definition decorator_for (k : hook) : ref → Decorator :=
  match k with
  | Before => run_before_decorator
  | After => run_after_decorator
  | Condition => condition_for_decorator
  end.

Definition register (k : hook) : ref → option ref → State → Res Decorator :=
  match k with
  | Before => run_before
  | After => run_after
  | Condition => condition_for
  end.

(** The calls a loop over [subs] makes in phase [p]. *)
Definition calls (p : phase) (a : args) (subs : list ref) : list call_event :=
  (λ sub, Called p sub a) <$> subs.

(** The callees of the calls made in phase [p]. *)
Definition callees (p : phase) (t : list call_event) : list ref :=
  ce_callee <$> filter (λ e, ce_phase e = p) t.

(** The list objects of a record. *)
Definition record_lists (rec : ref * ref * ref) : list ref :=
  [list_ref Before rec; list_ref After rec; list_ref Condition rec].

(** The object [o] holds a reference to the object [r]. *)
Definition refers (o : obj) (r : ref) : Prop :=
  match o with
  | PyList items => r ∈ items
  | CallsSubs _ f | Voided _ f => f = r
  | Function _ _ => False
  end.

Global Instance refers_dec o r : Decision (refers o r).
Proof. destruct o; simpl; apply _. Defined.

(** Something this module keeps refers to [r]: [r] is a list of a record of
    [_events], an item of a list, or the function a closure wraps.  Such an
    object is not reclaimed. *)
Definition referenced (st : State) (r : ref) : Prop :=
  map_Exists (λ _ rec, r ∈ record_lists rec) (_events st)
  ∨ map_Exists (λ _ o, refers o r) (heap st).

Global Instance referenced_dec st r : Decision (referenced st r).
Proof. unfold referenced. apply _. Defined.

(** Well-formed states: every event wrapper has its record, each record
    points to three list objects, and no list object is shared. *)
Record wf (st : State) : Prop := {
  wf_wrapper : ∀ ev f, is_event st ev f → is_Some (_events st !! ev);
  wf_lists : ∀ ev rec k,
    _events st !! ev = Some rec → is_Some (list_items st (list_ref k rec));
  wf_sep : ∀ ev1 ev2 rec1 rec2 k1 k2,
    _events st !! ev1 = Some rec1 → _events st !! ev2 = Some rec2 →
    list_ref k1 rec1 = list_ref k2 rec2 → ev1 = ev2 ∧ k1 = k2
}.

(** The state a computation leaves; the state it started from if it ran out
    of fuel. *)
Definition state_after {A} (r : Res A) (st : State) : State :=
  match r with
  | Ok _ st' | Err _ st' => st'
  | Timeout => st
  end.

(** No record of [_events] is left over from a wrapper that was reclaimed. *)
Definition no_stale (st : State) : Prop :=
  ∀ ev, is_Some (_events st !! ev) → ∃ f, is_event st ev f.

(** The state a program starts from: nothing allocated, [_events = {}]. *)
Definition initial (w : World) : State := MkState ∅ ∅ w.

(** [st'] differs from [st] in the host state only. *)
Definition same_objects (st st' : State) : Prop :=
  heap st' = heap st ∧ _events st' = _events st.

(** The state a computation leaves, if any, has the objects it started with. *)
Definition keeps_objects {A} (st : State) (r : Res A) : Prop :=
  match r with
  | Ok _ st' | Err _ st' => same_objects st st'
  | Timeout => True
  end.

(** The states a host program gets to: it defines functions and makes
    callable objects, promotes and adapts them, registers hooks, calls what
    it likes, and lets go of objects, which are reclaimed when nothing
    refers to them. *)
Inductive reachable : State → Prop :=
| reachable_initial w : reachable (initial w)
| reachable_def name code st :
    reachable st → reachable (def name code st).2
| reachable_callable_object code st :
    reachable st → reachable (callable_object code st).2
| reachable_reclaim r st :
    reachable st → ¬ referenced st r → reachable (reclaim r st)
| reachable_event f st :
    reachable st → reachable (event f st).2
| reachable_voidargs f st :
    reachable st → reachable (voidargs f st).2
| reachable_register k ev fn st :
    reachable st → reachable (state_after (register k ev fn st) st)
| reachable_decorator k ev f st :
    reachable st → reachable (state_after (decorator_for k ev f st) st)
| reachable_call fuel fn a st :
    reachable st → reachable (state_after (call fuel fn a st) st).

(** [st'] comes after [st] in the run of a host program that holds on to
    the objects of [keep]: these are not reclaimed on the way. *)
Inductive evolves (keep : gset ref) : State → State → Prop :=
| evolves_refl st : evolves keep st st
| evolves_def name code st st' :
    evolves keep st st' → evolves keep st (def name code st').2
| evolves_callable_object code st st' :
    evolves keep st st' → evolves keep st (callable_object code st').2
| evolves_reclaim r st st' :
    evolves keep st st' → r ∉ keep → ¬ referenced st' r →
    evolves keep st (reclaim r st')
| evolves_event f st st' :
    evolves keep st st' → evolves keep st (event f st').2
| evolves_voidargs f st st' :
    evolves keep st st' → evolves keep st (voidargs f st').2
| evolves_register k ev fn st st' :
    evolves keep st st' →
    evolves keep st (state_after (register k ev fn st') st')
| evolves_decorator k ev f st st' :
    evolves keep st st' →
    evolves keep st (state_after (decorator_for k ev f st') st')
| evolves_call fuel fn a st st' :
    evolves keep st st' →
    evolves keep st (state_after (call fuel fn a st') st').

Section Runs.

Variable invoke : ref → args → State → Res value.
Variable a : args.

(** Called one after the other on [a], starting from [st], every callable
    of the list returns a true value; [st'] is the state they leave. *)
Inductive all_pass : list ref → State → State → Prop :=
| all_pass_nil st : all_pass [] st st
| all_pass_cons c cs st v st1 st' :
    invoke c a st = Ok v st1 → truthy st1 v = true →
    all_pass cs st1 st' → all_pass (c :: cs) st st'.

(** Called one after the other on [a], starting from [st], every callable
    of the list returns; [st'] is the state they leave. *)
Inductive all_return : list ref → State → State → Prop :=
| all_return_nil st : all_return [] st st
| all_return_cons s subs st v st1 st' :
    invoke s a st = Ok v st1 →
    all_return subs st1 st' → all_return (s :: subs) st st'.

End Runs.

End Eventer.

Arguments Ok {World A} a st.
Arguments Err {World A} e st.
Arguments Timeout {World A}.

(** * A host program

    The functions and registrations of the project's tests, on a host state
    that is the one variable [x] the tests update. *)

Module Demo.

(** The functions below are those of the tests and of the docstrings, on
    the arguments they are written for: integers (and booleans, which
    Python counts as integers).  On other arguments they give [TypeError]. *)

(** [kwargs[key]] *)
Fixpoint kw_lookup (key : string) (kw : list (string * value)) : option value :=
  match kw with
  | [] => None
  | (k, v) :: rest => if String.eqb k key then Some v else kw_lookup key rest
  end.

(** Every keyword is one of [keys]. *)
Definition kw_only (keys : list string) (kw : list (string * value)) : bool :=
  forallb (λ p, existsb (String.eqb p.1) keys) kw.

(** An integer or a boolean, as an integer. *)
Definition as_int (v : value) : option Z :=
  match v with
  | VInt z => Some z
  | VBool b => Some (if b then 1 else 0)%Z
  | _ => None
  end.

(** The argument of a function of one parameter [arg], passed by position
    or by keyword; [more] says whether other keywords are taken
    ([**kwargs]). *)
Definition one_parameter (more : bool) (a : args) : option value :=
  match positional a with
  | [] =>
      if more || kw_only ["arg"] (keywords a)
      then kw_lookup "arg" (keywords a) else None
  | [v] =>
      match kw_lookup "arg" (keywords a) with
      | Some _ => None
      | None => if more || kw_only [] (keywords a) then Some v else None
      end
  | _ => None
  end.

(** The arguments of a function of the parameters [(x, y=5)]. *)
Definition x_and_y (a : args) : option (value * value) :=
  let kw := keywords a in
  match positional a with
  | [] =>
      if kw_only ["x"; "y"] kw then
        match kw_lookup "x" kw with
        | Some vx => Some (vx, default (VInt 5) (kw_lookup "y" kw))
        | None => None
        end
      else None
  | [vx] =>
      if kw_only ["y"] kw
      then Some (vx, default (VInt 5) (kw_lookup "y" kw)) else None
  | [vx; vy] => if kw_only [] kw then Some (vx, vy) else None
  | _ => None
  end.

(** [def foo(x, y=5): return x * 2 + y] *)
Definition foo (a : args) (x : Z) : (value + exn) * Z :=
  match x_and_y a with
  | Some (vx, vy) =>
      match as_int vx, as_int vy with
      | Some n, Some m => (inl (VInt (n * 2 + m)), x)
      | _, _ => (inr TypeError, x)
      end
  | None => (inr TypeError, x)
  end.

(** [def count( *args, **kwargs): nonlocal x; x += 1] *)
Definition count (a : args) (x : Z) : (value + exn) * Z :=
  (inl VNone, (x + 1)%Z).

(** [def is_even(arg): return arg % 2 == 0] *)
Definition is_even (a : args) (x : Z) : (value + exn) * Z :=
  match one_parameter false a ≫= as_int with
  | Some n => (inl (VBool (Z.even n)), x)
  | None => (inr TypeError, x)
  end.

(** [def first_is_even(arg, **kwargs): return arg % 2 == 0] *)
Definition first_is_even (a : args) (x : Z) : (value + exn) * Z :=
  match one_parameter true a ≫= as_int with
  | Some n => (inl (VBool (Z.even n)), x)
  | None => (inr TypeError, x)
  end.

(** [def always_false( *args, **kwargs): return False] *)
Definition always_false (a : args) (x : Z) : (value + exn) * Z :=
  (inl (VBool false), x).

(** [def failing( *args, **kwargs): raise ...] *)
Definition failing (a : args) (x : Z) : (value + exn) * Z :=
  (inr (HostError (VStr "failing")), x).

(** [def set_x_to_arg(arg): nonlocal x; x = arg], for an integer [arg] *)
Definition set_x_to_arg (a : args) (x : Z) : (value + exn) * Z :=
  match one_parameter false a with
  | Some (VInt n) => (inl VNone, n)
  | _ => (inr TypeError, x)
  end.

(** [def increment(): nonlocal x; x += 1] *)
Definition increment (a : args) (x : Z) : (value + exn) * Z :=
  match positional a, keywords a with
  | [], [] => (inl VNone, (x + 1)%Z)
  | _, _ => (inr TypeError, x)
  end.

(** [def zero_if_6(): nonlocal x; if x == 6: x = 0] *)
Definition zero_if_6 (a : args) (x : Z) : (value + exn) * Z :=
  match positional a, keywords a with
  | [], [] => (inl VNone, if Z.eqb x 6 then 0%Z else x)
  | _, _ => (inr TypeError, x)
  end.

(** [def return5(): return 5] *)
Definition return5 (a : args) (x : Z) : (value + exn) * Z :=
  match positional a, keywords a with
  | [], [] => (inl (VInt 5), x)
  | _, _ => (inr TypeError, x)
  end.

(** Identities are the least unused ones: the identity of an object that
    was reclaimed is the next to be handed out. *)
Fixpoint first_unused (n : nat) (p : positive) (X : gset ref) : ref :=
  match n with
  | O => fresh X
  | S n' => if decide (p ∈ X) then first_unused n' (Pos.succ p) X else p
  end.

Definition new_id (X : gset ref) : ref := first_unused (S (size X)) 1 X.

(** The host functions, defined with [x = 50]. *)
Definition defs_foo := def new_id "foo" foo (initial 50%Z).
Definition defs_count := def new_id "count" count defs_foo.2.
Definition defs_is_even :=
  def new_id "first_is_even" first_is_even defs_count.2.
Definition defs_always_false :=
  def new_id "always_false" always_false defs_is_even.2.
Definition defs_failing := def new_id "failing" failing defs_always_false.2.

Definition foo_fn : ref := defs_foo.1.
Definition count_fn : ref := defs_count.1.
Definition is_even_fn : ref := defs_is_even.1.
Definition always_false_fn : ref := defs_always_false.1.
Definition failing_fn : ref := defs_failing.1.

Definition st_defs : State := defs_failing.2.

(** [foo = event(foo)], then a second event on the same function. *)
Definition promoted := event new_id foo_fn st_defs.
Definition ev : ref := promoted.1.
Definition st_ev : State := promoted.2.

Definition promoted2 := event new_id foo_fn st_ev.
Definition ev2 : ref := promoted2.1.
Definition st_ev2 : State := promoted2.2.

(** [run_before(ev, count)], [run_after(ev, count)],
    [condition_for(ev, first_is_even)] *)
Definition st_before : State :=
  state_after (run_before ev (Some count_fn) st_ev2) st_ev2.
Definition st_after : State :=
  state_after (run_after ev (Some count_fn) st_before) st_before.
Definition st_hooked : State :=
  state_after (condition_for ev (Some is_even_fn) st_after) st_after.

(** ... then [condition_for(ev, always_false)] *)
Definition st_vetoed : State :=
  state_after (condition_for ev (Some always_false_fn) st_hooked) st_hooked.

(** ... or else [run_after(ev, failing)] *)
Definition st_failing : State :=
  state_after (run_after ev (Some failing_fn) st_hooked) st_hooked.

(** ... or else [condition_for(ev, voidargs(count))] *)
Definition adapted := voidargs new_id count_fn st_hooked.
Definition voided_count : ref := adapted.1.
Definition st_adapted : State :=
  state_after (condition_for ev (Some voided_count) adapted.2) adapted.2.

(** [run_before(ev2, count)], after which the wrapper [ev2] is let go and
    reclaimed; its record stays in [_events]. *)
Definition st_ev2_before : State :=
  state_after (run_before ev2 (Some count_fn) st_ev2) st_ev2.
Definition st_stale : State := reclaim ev2 st_ev2_before.

(** ... then [def bar( *args, **kwargs): ...], a function as any other *)
Definition defs_bar := def new_id "bar" count st_stale.
Definition bar_fn : ref := defs_bar.1.
Definition st_bar : State := defs_bar.2.


(** [p = functools.partial(count)]: a callable without [__name__] *)
Definition made_partial := callable_object new_id count st_hooked.
Definition partial_fn : ref := made_partial.1.
Definition st_partial : State := made_partial.2.

(** [run_before(ev, count)] twice, then [condition_for(ev, always_false)] *)
Definition st_dup1 : State :=
  state_after (run_before ev (Some count_fn) st_ev) st_ev.
Definition st_dup : State :=
  state_after (run_before ev (Some count_fn) st_dup1) st_dup1.
Definition st_dup_vetoed : State :=
  state_after (condition_for ev (Some always_false_fn) st_dup) st_dup.

(** After [st_hooked]: [run_before(ev, first_is_even)] twice *)
Definition st_twice1 : State :=
  state_after (run_before ev (Some is_even_fn) st_hooked) st_hooked.
Definition st_twice : State :=
  state_after (run_before ev (Some is_even_fn) st_twice1) st_twice1.

(** After [st_hooked]: the wrapper [ev2] is let go and reclaimed, [foo] is
    promoted once more, and [run_before(ev, first_is_even)]. *)
Definition st_hooked_dropped : State := reclaim ev2 st_hooked.
Definition st_hooked_again : State :=
  (event new_id foo_fn st_hooked_dropped).2.
Definition st_hooked_more : State :=
  state_after (run_before ev (Some is_even_fn) st_hooked_again)
    st_hooked_again.

(** [foo(2, y=15)] and [foo(1, y=15)] *)
Definition args_2_15 : args := Args [VInt 2] [("y", VInt 15)].
Definition args_1_15 : args := Args [VInt 1] [("y", VInt 15)].

(** [set_x_to_arg = event(set_x_to_arg)] with the condition [is_even],
    as in [test_condition]. *)
Definition tc_body := def new_id "set_x_to_arg" set_x_to_arg (initial 50%Z).
Definition tc_event := event new_id tc_body.1 tc_body.2.
Definition tc_cond := def new_id "is_even" is_even tc_event.2.
Definition tc_state : State :=
  state_after (condition_for tc_event.1 (Some tc_cond.1) tc_cond.2) tc_cond.2.

(** [zero_if_6 = event(zero_if_6)] with [increment] run after, then also
    before, as in [test_run_before_and_after]; [x = 5]. *)
Definition to_incr := def new_id "increment" increment (initial 5%Z).
Definition to_body := def new_id "zero_if_6" zero_if_6 to_incr.2.
Definition to_event := event new_id to_body.1 to_body.2.
Definition to_after : State :=
  state_after (run_after to_event.1 (Some to_incr.1) to_event.2) to_event.2.
Definition to_both : State :=
  state_after (run_before to_event.1 (Some to_incr.1) to_after) to_after.

(** [return5 = event(return5)], then [condition_for(return5, always_false)],
    as in [test_condition]. *)
Definition tr_body := def new_id "return5" return5 (initial 0%Z).
Definition tr_false := def new_id "always_false" always_false tr_body.2.
Definition tr_event := event new_id tr_body.1 tr_false.2.
Definition tr_vetoed : State :=
  state_after (condition_for tr_event.1 (Some tr_false.1) tr_event.2)
    tr_event.2.

End Demo.

(** * Properties *)

Section Properties.

Context {World : Type}.
Variable alloc : gset ref → ref.
Hypothesis alloc_fresh : ∀ X, alloc X ∉ X.

Local Abbreviation state := (@State World).
Local Abbreviation res := (@Res World).

Implicit Types (st : state) (a : args) (ev f sub : ref) (k : hook)
  (o : @obj World).

Ltac unfold_M :=
  unfold calls_subs, voided, iter, getitem_events, call_sub, not_, bind,
    ret, raise in *.

(** ** Calls leave the objects alone *)

Lemma same_objects_refl st : same_objects st st.
Proof. by split. Qed.

Lemma same_objects_trans st1 st2 st3 :
  same_objects st1 st2 → same_objects st2 st3 → same_objects st1 st3.
Proof. intros [? ?] [? ?]. split; congruence. Qed.

Lemma keeps_objects_trans {A} st1 st2 (r : res A) :
  same_objects st1 st2 → keeps_objects st2 r → keeps_objects st1 r.
Proof. destruct r; simpl; eauto using same_objects_trans. Qed.

Lemma same_objects_set_world st w : same_objects st (set_world st w).
Proof. by split. Qed.

Lemma same_objects_hooks st st' ev k :
  same_objects st st' → hooks st' ev k = hooks st ev k.
Proof. intros [Hh He]. unfold hooks, list_items. by rewrite Hh, He. Qed.

Lemma same_objects_truthy st st' v :
  same_objects st st' → truthy st' v = truthy st v.
Proof. intros [Hh _]. destruct v; simpl; try done. by rewrite Hh. Qed.

Section Frame.

Variable invoke : ref → args → state → res value.
Hypothesis invoke_keeps : ∀ fn a st, keeps_objects st (invoke fn a st).

Lemma for_conditions_keeps cs a st :
  keeps_objects st (for_conditions invoke cs a st).2.
Proof.
  revert st. induction cs as [|c cs IH]; intros st; simpl.
  { apply same_objects_refl. }
  unfold_M. pose proof (invoke_keeps c a st) as Hc.
  destruct (invoke c a st) as [v st1| |]; simpl in *; try done.
  destruct (truthy st1 v); simpl; [|done].
  specialize (IH st1).
  destruct (for_conditions invoke cs a st1) as [t r]; simpl in *.
  by eapply keeps_objects_trans.
Qed.

Lemma for_subs_keeps p subs a st :
  keeps_objects st (for_subs invoke p subs a st).2.
Proof.
  revert st. induction subs as [|s subs IH]; intros st; simpl.
  { apply same_objects_refl. }
  unfold_M. pose proof (invoke_keeps s a st) as Hs.
  destruct (invoke s a st) as [v st1| |]; simpl in *; try done.
  specialize (IH st1).
  destruct (for_subs invoke p subs a st1) as [t r]; simpl in *.
  by eapply keeps_objects_trans.
Qed.

Lemma calls_subs_keeps self f a st :
  keeps_objects st (calls_subs invoke self f a st).2.
Proof.
  unfold_M.
  destruct (_events st !! self) as [[[before after] conditions]|];
    simpl; [|apply same_objects_refl].
  destruct (list_items st conditions) as [cs|]; simpl; [|apply same_objects_refl].
  pose proof (for_conditions_keeps cs a st) as Hc.
  destruct (for_conditions invoke cs a st) as [t1 [[] st1| |]];
    simpl in *; try done.
  destruct (list_items st1 before) as [bs|]; simpl; [|done].
  pose proof (for_subs_keeps InBefore bs a st1) as Hb.
  destruct (for_subs invoke InBefore bs a st1) as [t2 [[] st2| |]];
    simpl in *; try done; [|by eapply same_objects_trans].
  assert (same_objects st st2) as H2 by by eapply same_objects_trans.
  pose proof (invoke_keeps f a st2) as Hf.
  destruct (invoke f a st2) as [r st3| |];
    simpl in *; try done; [|by eapply same_objects_trans].
  assert (same_objects st st3) as H3 by by eapply same_objects_trans.
  destruct (list_items st3 after) as [afs|]; simpl; [|done].
  pose proof (for_subs_keeps InAfter afs a st3) as Ha.
  destruct (for_subs invoke InAfter afs a st3) as [t4 [[] st4| |]];
    simpl in *; try done; by eapply same_objects_trans.
Qed.

Lemma voided_keeps f a st : keeps_objects st (voided invoke f a st).2.
Proof.
  unfold_M. pose proof (invoke_keeps f no_args st).
  by destruct (invoke f no_args st).
Qed.

End Frame.

Lemma call_keeps n fn a st : keeps_objects st (call n fn a st).
Proof.
  revert fn a st. induction n as [|n IH]; intros fn a st; simpl; [done|].
  destruct (heap st !! fn) as [[name code|name f|name f|items]|]; simpl;
    try apply same_objects_refl.
  - destruct (code a (world st)) as [[v|e] w]; apply same_objects_set_world.
  - by apply calls_subs_keeps.
  - by apply voided_keeps.
Qed.

Lemma call_ok_same n fn a st v st' :
  call n fn a st = Ok v st' → same_objects st st'.
Proof. intros H. pose proof (call_keeps n fn a st) as Hk. by rewrite H in Hk. Qed.

Lemma call_err_same n fn a st e st' :
  call n fn a st = Err e st' → same_objects st st'.
Proof. intros H. pose proof (call_keeps n fn a st) as Hk. by rewrite H in Hk. Qed.

(** ** More fuel changes nothing once a call has come to an end *)

Section Fuel.

Variables inv1 inv2 : ref → args → state → res value.
Hypothesis inv_le :
  ∀ fn a st, inv1 fn a st ≠ Timeout → inv2 fn a st = inv1 fn a st.

Lemma for_conditions_mono cs a st :
  (for_conditions inv1 cs a st).2 ≠ Timeout →
  for_conditions inv2 cs a st = for_conditions inv1 cs a st.
Proof.
  revert st. induction cs as [|c cs IH]; intros st; simpl; [done|].
  unfold_M. pose proof (inv_le c a st) as Hle.
  destruct (inv1 c a st) as [v st1|e st1|]; simpl;
    [| by rewrite Hle | done].
  rewrite Hle by done. destruct (truthy st1 v); simpl; [|done].
  specialize (IH st1).
  destruct (for_conditions inv1 cs a st1) as [t r]; simpl in *.
  intros Hr. by rewrite IH.
Qed.

Lemma for_subs_mono p subs a st :
  (for_subs inv1 p subs a st).2 ≠ Timeout →
  for_subs inv2 p subs a st = for_subs inv1 p subs a st.
Proof.
  revert st. induction subs as [|s subs IH]; intros st; simpl; [done|].
  unfold_M. pose proof (inv_le s a st) as Hle.
  destruct (inv1 s a st) as [v st1|e st1|]; simpl;
    [| by rewrite Hle | done].
  rewrite Hle by done. specialize (IH st1).
  destruct (for_subs inv1 p subs a st1) as [t r]; simpl in *.
  intros Hr. by rewrite IH.
Qed.

Lemma calls_subs_mono self f a st :
  (calls_subs inv1 self f a st).2 ≠ Timeout →
  calls_subs inv2 self f a st = calls_subs inv1 self f a st.
Proof.
  unfold_M.
  destruct (_events st !! self) as [[[before after] conditions]|];
    simpl; [|done].
  destruct (list_items st conditions) as [cs|]; simpl; [|done].
  pose proof (for_conditions_mono cs a st) as Hc.
  destruct (for_conditions inv1 cs a st) as [t1 [[] st1| |]];
    simpl in *; intros Hne; rewrite Hc by done; try done.
  destruct (list_items st1 before) as [bs|]; simpl in *; [|done].
  pose proof (for_subs_mono InBefore bs a st1) as Hb.
  destruct (for_subs inv1 InBefore bs a st1) as [t2 [[] st2| |]];
    simpl in *; rewrite Hb by done; try done.
  pose proof (inv_le f a st2) as Hf.
  destruct (inv1 f a st2) as [r st3| |];
    simpl in *; rewrite Hf by done; try done.
  destruct (list_items st3 after) as [afs|]; simpl in *; [|done].
  pose proof (for_subs_mono InAfter afs a st3) as Ha.
  destruct (for_subs inv1 InAfter afs a st3) as [t4 [[] st4| |]];
    simpl in *; by rewrite Ha.
Qed.

Lemma voided_mono f a st :
  (voided inv1 f a st).2 ≠ Timeout →
  voided inv2 f a st = voided inv1 f a st.
Proof.
  unfold_M. pose proof (inv_le f no_args st) as Hle.
  destruct (inv1 f no_args st); simpl; intros Hne; by rewrite Hle.
Qed.

End Fuel.

Lemma call_mono_step n fn a st :
  call n fn a st ≠ Timeout → call (S n) fn a st = call n fn a st.
Proof.
  revert fn a st. induction n as [|n IH]; intros fn a st; [done|].
  intros Hne. change (call (S n) fn a st) with
    (match heap st !! fn with
     | Some (Function _ code) =>
         match code a (world st) with
         | (inl v, w) => Ok v (set_world st w)
         | (inr e, w) => Err e (set_world st w)
         end
     | Some (CallsSubs _ f) => (calls_subs (call n) fn f a st).2
     | Some (Voided _ f) => (voided (call n) f a st).2
     | Some (PyList _) | None => Err TypeError st
     end) in *.
  change (call (S (S n)) fn a st) with
    (match heap st !! fn with
     | Some (Function _ code) =>
         match code a (world st) with
         | (inl v, w) => Ok v (set_world st w)
         | (inr e, w) => Err e (set_world st w)
         end
     | Some (CallsSubs _ f) => (calls_subs (call (S n)) fn f a st).2
     | Some (Voided _ f) => (voided (call (S n)) f a st).2
     | Some (PyList _) | None => Err TypeError st
     end).
  destruct (heap st !! fn) as [[name code|name f|name f|items]|]; try done.
  - by rewrite (calls_subs_mono (call n) (call (S n))).
  - by rewrite (voided_mono (call n) (call (S n))).
Qed.

(** A call that comes to an end with fuel [n] comes to the same end with
    any fuel above [n]. *)
Lemma call_mono (n m : nat) fn a st :
  (n ≤ m)%nat → call n fn a st ≠ Timeout → call m fn a st = call n fn a st.
Proof.
  induction 1 as [|m _ IH]; [done|]. intros Hne.
  rewrite call_mono_step; rewrite IH; done.
Qed.

Lemma dispatch_mono (n m : nat) ev a st :
  (n ≤ m)%nat → (dispatch n ev a st).2 ≠ Timeout →
  dispatch m ev a st = dispatch n ev a st.
Proof.
  intros Hle. unfold dispatch.
  destruct (heap st !! ev) as [[name code|name f|name f|items]|]; try done.
  apply calls_subs_mono. intros fn a' st'. by apply call_mono.
Qed.

(** ** What the loops of the dispatcher do *)

Lemma calls_cons p a sub subs :
  calls p a (sub :: subs) = Called p sub a :: calls p a subs.
Proof. done. Qed.

Lemma calls_app p a l1 l2 : calls p a (l1 ++ l2) = calls p a l1 ++ calls p a l2.
Proof. apply fmap_app. Qed.

Section Loops.

Variable invoke : ref → args → state → res value.

Lemma for_conditions_pass a cs st st' :
  all_pass invoke a cs st st' →
  for_conditions invoke cs a st = (calls InCondition a cs, Ok true st').
Proof.
  induction 1 as [|c cs st v st1 st' Hc Hv _ IH]; simpl; [done|].
  unfold_M. rewrite Hc; simpl. rewrite Hv; simpl. by rewrite IH.
Qed.

Lemma for_conditions_veto a pre c post st st1 v st2 :
  all_pass invoke a pre st st1 →
  invoke c a st1 = Ok v st2 → truthy st2 v = false →
  for_conditions invoke (pre ++ c :: post) a st
  = (calls InCondition a (pre ++ [c]), Ok false st2).
Proof.
  intros Hpre Hc Hv.
  induction Hpre as [|c' cs st v' st1' st' Hc' Hv' _ IH]; simpl.
  - unfold_M. rewrite Hc; simpl. by rewrite Hv.
  - unfold_M. rewrite Hc'; simpl. rewrite Hv'; simpl. by rewrite IH.
Qed.

Lemma for_conditions_fails a pre c post st st1 e st2 :
  all_pass invoke a pre st st1 →
  invoke c a st1 = Err e st2 →
  for_conditions invoke (pre ++ c :: post) a st
  = (calls InCondition a (pre ++ [c]), Err e st2).
Proof.
  intros Hpre Hc.
  induction Hpre as [|c' cs st v' st1' st' Hc' Hv' _ IH]; simpl.
  - unfold_M. by rewrite Hc.
  - unfold_M. rewrite Hc'; simpl. rewrite Hv'; simpl. by rewrite IH.
Qed.

Lemma for_subs_ok p a subs st st' :
  all_return invoke a subs st st' →
  for_subs invoke p subs a st = (calls p a subs, Ok tt st').
Proof.
  induction 1 as [|s subs st v st1 st' Hs _ IH]; simpl; [done|].
  unfold_M. rewrite Hs; simpl. by rewrite IH.
Qed.

Lemma for_subs_fails p a pre s post st st1 e st2 :
  all_return invoke a pre st st1 →
  invoke s a st1 = Err e st2 →
  for_subs invoke p (pre ++ s :: post) a st = (calls p a (pre ++ [s]), Err e st2).
Proof.
  intros Hpre Hs.
  induction Hpre as [|s' subs st v' st1' st' Hs' _ IH]; simpl.
  - unfold_M. by rewrite Hs.
  - unfold_M. rewrite Hs'; simpl. by rewrite IH.
Qed.

(** A loop that comes to its end has called every item, in list order. *)
Lemma for_subs_ok_inv p a subs st t u st' :
  for_subs invoke p subs a st = (t, Ok u st') → t = calls p a subs.
Proof.
  revert st t. induction subs as [|s subs IH]; intros st t; simpl.
  { unfold_M. by intros [= <- _ _]. }
  unfold_M. destruct (invoke s a st) as [v st1| |]; try done.
  destruct (for_subs invoke p subs a st1) as [t' r] eqn:Hrest.
  intros [= <- ->]. f_equal. by eapply IH.
Qed.

Lemma for_conditions_true_inv a cs st t st' :
  for_conditions invoke cs a st = (t, Ok true st') →
  t = calls InCondition a cs.
Proof.
  revert st t. induction cs as [|c cs IH]; intros st t; simpl.
  { unfold_M. by intros [= <- _]. }
  unfold_M. destruct (invoke c a st) as [v st1| |]; try done.
  destruct (truthy st1 v); simpl; [|done].
  destruct (for_conditions invoke cs a st1) as [t' r] eqn:Hrest.
  intros [= <- ->]. f_equal. by eapply IH.
Qed.

(** Every call the loops make is made in the phase of the loop. *)
Lemma for_conditions_phase a cs st :
  Forall (λ e, ce_phase e = InCondition) (for_conditions invoke cs a st).1.
Proof.
  revert st. induction cs as [|c cs IH]; intros st; simpl; [done|].
  unfold_M. destruct (invoke c a st) as [v st1| |]; simpl; try by repeat constructor.
  destruct (truthy st1 v); simpl; [|by repeat constructor].
  specialize (IH st1).
  destruct (for_conditions invoke cs a st1) as [t' r]; simpl in *.
  by constructor.
Qed.

(** Whatever happens, a loop calls the items of its list in list order,
    without skipping any, as far as it gets. *)
Lemma for_conditions_prefix a cs st :
  ∃ cs', cs' `prefix_of` cs
         ∧ (for_conditions invoke cs a st).1 = calls InCondition a cs'.
Proof.
  revert st. induction cs as [|c cs IH]; intros st; simpl.
  { by exists []. }
  unfold_M.
  assert ([c] `prefix_of` c :: cs) as Hone by by exists cs.
  destruct (invoke c a st) as [v st1| |]; simpl; try by exists [c].
  destruct (truthy st1 v); simpl; [|by exists [c]].
  destruct (IH st1) as (cs' & Hpre & Ht).
  destruct (for_conditions invoke cs a st1) as [t' r]; simpl in *.
  exists (c :: cs'). split; [by apply prefix_cons|]. by rewrite Ht.
Qed.

Lemma for_subs_prefix p a subs st :
  ∃ subs', subs' `prefix_of` subs
           ∧ (for_subs invoke p subs a st).1 = calls p a subs'.
Proof.
  revert st. induction subs as [|s subs IH]; intros st; simpl.
  { by exists []. }
  unfold_M.
  assert ([s] `prefix_of` s :: subs) as Hone by by exists subs.
  destruct (invoke s a st) as [v st1| |]; simpl; try by exists [s].
  destruct (IH st1) as (subs' & Hpre & Ht).
  destruct (for_subs invoke p subs a st1) as [t' r]; simpl in *.
  exists (s :: subs'). split; [by apply prefix_cons|]. by rewrite Ht.
Qed.

End Loops.

Lemma hooks_Some st ev k l :
  hooks st ev k = Some l →
  ∃ rec, _events st !! ev = Some rec ∧ list_items st (list_ref k rec) = Some l.
Proof.
  unfold hooks. destruct (_events st !! ev) as [rec|]; simpl; [|done]. eauto.
Qed.

Lemma same_objects_list_items st st' l :
  same_objects st st' → list_items st' l = list_items st l.
Proof. intros [Hh _]. unfold list_items. by rewrite Hh. Qed.

(** A dispatch is the four steps one after the other, each on the state the
    previous one left, the lists being those of the record at the start. *)
Lemma dispatch_unfold n ev f cs bs afs a st :
  is_event st ev f →
  hooks st ev Condition = Some cs →
  hooks st ev Before = Some bs →
  hooks st ev After = Some afs →
  dispatch n ev a st =
    match for_conditions (call n) cs a st with
    | (t1, Ok true st1) =>
        match for_subs (call n) InBefore bs a st1 with
        | (t2, Ok _ st2) =>
            match call n f a st2 with
            | Ok r st3 =>
                match for_subs (call n) InAfter afs a st3 with
                | (t4, Ok _ st4) =>
                    (t1 ++ t2 ++ Called InBody f a :: t4, Ok r st4)
                | (t4, Err e st4) =>
                    (t1 ++ t2 ++ Called InBody f a :: t4, Err e st4)
                | (t4, Timeout) =>
                    (t1 ++ t2 ++ Called InBody f a :: t4, Timeout)
                end
            | Err e st3 => (t1 ++ t2 ++ [Called InBody f a], Err e st3)
            | Timeout => (t1 ++ t2 ++ [Called InBody f a], Timeout)
            end
        | (t2, Err e st2) => (t1 ++ t2, Err e st2)
        | (t2, Timeout) => (t1 ++ t2, Timeout)
        end
    | (t1, Ok false st1) => (t1, Ok VNone st1)
    | (t1, Err e st1) => (t1, Err e st1)
    | (t1, Timeout) => (t1, Timeout)
    end.
Proof.
  intros [name Hev] Hc Hb Ha.
  apply hooks_Some in Hc as (rec & Hrec & Hc).
  apply hooks_Some in Hb as (rec' & Hrec' & Hb).
  apply hooks_Some in Ha as (rec'' & Hrec'' & Ha).
  assert (rec' = rec) as -> by congruence.
  assert (rec'' = rec) as -> by congruence.
  destruct rec as [[before after] conditions]; simpl in *.
  unfold dispatch. rewrite Hev. unfold_M. rewrite Hrec, Hc; simpl.
  pose proof (for_conditions_keeps (call n) (call_keeps n) cs a st) as Hk1.
  destruct (for_conditions (call n) cs a st) as [t1 [[] st1| |]];
    simpl in *; try done; [|by rewrite app_nil_r].
  rewrite (same_objects_list_items st st1) by done. rewrite Hb; simpl.
  pose proof (for_subs_keeps (call n) (call_keeps n) InBefore bs a st1) as Hk2.
  destruct (for_subs (call n) InBefore bs a st1) as [t2 [[] st2| |]];
    simpl in *; try done.
  assert (same_objects st st2) as H2 by by eapply same_objects_trans.
  pose proof (call_keeps n f a st2) as Hk3.
  destruct (call n f a st2) as [r st3| |]; simpl in *; try done.
  assert (same_objects st st3) as H3 by by eapply same_objects_trans.
  rewrite (same_objects_list_items st st3) by done. rewrite Ha; simpl.
  destruct (for_subs (call n) InAfter afs a st3) as [t4 [[] st4| |]];
    simpl; by rewrite ?app_nil_r.
Qed.

(** Calling an event wrapper is dispatching, one unit of fuel down. *)
Lemma call_is_dispatch n ev f a st :
  is_event st ev f → call (S n) ev a st = (dispatch n ev a st).2.
Proof. intros [name Hev]. unfold dispatch. simpl. by rewrite Hev. Qed.

(** ** Dispatch *)

(** C1. When the conditions registered before [c] all return a true value
    and [c] returns false (any value [not] takes for false), the
    dispatcher has called exactly those conditions, in registration order
    and each on the arguments of the call, no before-hook, not the body, no
    after-hook, and the call returns [None], with any fuel above [n]. *)
Theorem condition_veto n ev f pre c post bs afs a st st1 v st2 :
  is_event st ev f →
  hooks st ev Condition = Some (pre ++ c :: post) →
  hooks st ev Before = Some bs →
  hooks st ev After = Some afs →
  all_pass (call n) a pre st st1 →
  call n c a st1 = Ok v st2 →
  truthy st2 v = false →
  dispatch n ev a st = (calls InCondition a (pre ++ [c]), Ok VNone st2)
  ∧ ∀ m, (n < m)%nat → call m ev a st = Ok VNone st2.
Proof.
  intros Hev Hc Hb Ha Hpre Hcall Hv.
  assert (dispatch n ev a st = (calls InCondition a (pre ++ [c]), Ok VNone st2))
    as Hd.
  { rewrite (dispatch_unfold n ev f _ bs afs) by done.
    by rewrite (for_conditions_veto _ a pre c post st st1 v st2). }
  split; [done|]. intros m Hm.
  assert (call (S n) ev a st = Ok VNone st2) as Hcall'
    by by rewrite (call_is_dispatch n ev f), Hd.
  rewrite (call_mono (S n) m) by (by rewrite ?Hcall'). done.
Qed.

(** When every condition returns and one of them returns false whenever it
    is called, there is a first condition that returns false, and the
    dispatch stops there. *)
Lemma first_false_condition n a cs c0 st s0 :
  same_objects st s0 →
  (∀ c s, c ∈ cs → same_objects st s → ∃ v s', call n c a s = Ok v s') →
  c0 ∈ cs →
  (∀ s v s', same_objects st s → call n c0 a s = Ok v s' →
     truthy s' v = false) →
  ∃ pre c post st1 v st2,
    cs = pre ++ c :: post
    ∧ all_pass (call n) a pre s0 st1
    ∧ call n c a st1 = Ok v st2
    ∧ truthy st2 v = false.
Proof.
  intros Hsame Htotal Hin Hfalse. revert s0 Hsame Htotal Hin.
  induction cs as [|c cs IH]; intros s0 Hsame Htotal Hin;
    [by apply elem_of_nil in Hin|].
  destruct (Htotal c s0) as (v & s1 & Hc); [by left | done |].
  assert (same_objects st s1) as Hsame1.
  { eapply same_objects_trans; [done|]. by eapply call_ok_same. }
  destruct (truthy s1 v) eqn:Hv.
  - assert (c0 ∈ cs) as Hin'.
    { apply elem_of_cons in Hin as [->|Hin]; [|done].
      rewrite (Hfalse s0 v s1) in Hv; done. }
    destruct (IH s1) as (pre & c' & post & st1 & v' & st2 & -> & Hpre & Hc' & Hv');
      try done.
    { intros c'' s Hc'' Hs. apply Htotal; [by right | done]. }
    exists (c :: pre), c', post, st1, v', st2. split_and!; try done.
    by eapply all_pass_cons.
  - exists [], c, cs, s0, v, s1. split_and!; try done. apply all_pass_nil.
Qed.

Lemma some_condition_false_vetoes n ev f cs bs afs a c0 st :
  is_event st ev f →
  hooks st ev Condition = Some cs →
  hooks st ev Before = Some bs →
  hooks st ev After = Some afs →
  (∀ c s, c ∈ cs → same_objects st s → ∃ v s', call n c a s = Ok v s') →
  c0 ∈ cs →
  (∀ s v s', same_objects st s → call n c0 a s = Ok v s' →
     truthy s' v = false) →
  ∃ pre c post st2,
    cs = pre ++ c :: post
    ∧ dispatch n ev a st = (calls InCondition a (pre ++ [c]), Ok VNone st2).
Proof.
  intros Hev Hc Hb Ha Htotal Hin Hfalse.
  destruct (first_false_condition n a cs c0 st st (same_objects_refl st)
              Htotal Hin Hfalse)
    as (pre & c & post & st1 & v & st2 & -> & Hpre & Hcall & Hv).
  exists pre, c, post, st2. split; [done|].
  rewrite (dispatch_unfold n ev f _ bs afs) by done.
  by rewrite (for_conditions_veto _ a pre c post st st1 v st2).
Qed.

(** C2. When every registered condition returns a true value (none is
    registered, in particular), every before-hook returns, the body returns
    [r] and every after-hook returns, the dispatcher has called the
    conditions, the before-hooks, the body and the after-hooks, in this
    order and each list in registration order, each on the arguments of the
    call, and the call returns [r], whatever the hooks returned, with any
    fuel above [n]. *)
Theorem dispatch_runs_everything n ev f cs bs afs a st st1 st2 r st3 st4 :
  is_event st ev f →
  hooks st ev Condition = Some cs →
  hooks st ev Before = Some bs →
  hooks st ev After = Some afs →
  all_pass (call n) a cs st st1 →
  all_return (call n) a bs st1 st2 →
  call n f a st2 = Ok r st3 →
  all_return (call n) a afs st3 st4 →
  dispatch n ev a st
  = (calls InCondition a cs ++ calls InBefore a bs
       ++ Called InBody f a :: calls InAfter a afs, Ok r st4)
  ∧ ∀ m, (n < m)%nat → call m ev a st = Ok r st4.
Proof.
  intros Hev Hc Hb Ha Hcs Hbs Hf Hafs.
  assert (dispatch n ev a st
          = (calls InCondition a cs ++ calls InBefore a bs
               ++ Called InBody f a :: calls InAfter a afs, Ok r st4)) as Hd.
  { rewrite (dispatch_unfold n ev f cs bs afs) by done.
    rewrite (for_conditions_pass _ a cs st st1) by done.
    rewrite (for_subs_ok _ InBefore a bs st1 st2) by done.
    rewrite Hf.
    by rewrite (for_subs_ok _ InAfter a afs st3 st4). }
  split; [done|]. intros m Hm.
  assert (call (S n) ev a st = Ok r st4) as Hcall'
    by by rewrite (call_is_dispatch n ev f), Hd.
  rewrite (call_mono (S n) m) by (by rewrite ?Hcall'). done.
Qed.

(** C6. An exception raised by a condition, a before-hook, the body or an
    after-hook is the outcome of the call, as raised.  The dispatcher makes
    no call after the one that raised: a failing before-hook keeps the body
    and the after-hooks from running, a failing after-hook keeps the
    remaining after-hooks from running, and the value [r] the body returned
    is not part of the outcome. *)
Theorem exceptions_propagate n ev f cs bs afs a st e :
  is_event st ev f →
  hooks st ev Condition = Some cs →
  hooks st ev Before = Some bs →
  hooks st ev After = Some afs →
  (∀ pre c post st1 st2,
     cs = pre ++ c :: post →
     all_pass (call n) a pre st st1 →
     call n c a st1 = Err e st2 →
     dispatch n ev a st = (calls InCondition a (pre ++ [c]), Err e st2))
  ∧ (∀ st1 pre s post st2 st3,
     all_pass (call n) a cs st st1 →
     bs = pre ++ s :: post →
     all_return (call n) a pre st1 st2 →
     call n s a st2 = Err e st3 →
     dispatch n ev a st
     = (calls InCondition a cs ++ calls InBefore a (pre ++ [s]), Err e st3))
  ∧ (∀ st1 st2 st3,
     all_pass (call n) a cs st st1 →
     all_return (call n) a bs st1 st2 →
     call n f a st2 = Err e st3 →
     dispatch n ev a st
     = (calls InCondition a cs ++ calls InBefore a bs ++ [Called InBody f a],
        Err e st3))
  ∧ (∀ st1 st2 r st3 pre s post st4 st5,
     all_pass (call n) a cs st st1 →
     all_return (call n) a bs st1 st2 →
     call n f a st2 = Ok r st3 →
     afs = pre ++ s :: post →
     all_return (call n) a pre st3 st4 →
     call n s a st4 = Err e st5 →
     dispatch n ev a st
     = (calls InCondition a cs ++ calls InBefore a bs
          ++ Called InBody f a :: calls InAfter a (pre ++ [s]), Err e st5)).
Proof.
  intros Hev Hc Hb Ha. repeat split.
  - intros pre c post st1 st2 -> Hpre Hcall.
    rewrite (dispatch_unfold n ev f _ bs afs) by done.
    by rewrite (for_conditions_fails _ a pre c post st st1 e st2).
  - intros st1 pre s post st2 st3 Hcs -> Hpre Hcall.
    rewrite (dispatch_unfold n ev f cs _ afs) by done.
    rewrite (for_conditions_pass _ a cs st st1) by done.
    by rewrite (for_subs_fails _ InBefore a pre s post st1 st2 e st3).
  - intros st1 st2 st3 Hcs Hbs Hf.
    rewrite (dispatch_unfold n ev f cs bs afs) by done.
    rewrite (for_conditions_pass _ a cs st st1) by done.
    rewrite (for_subs_ok _ InBefore a bs st1 st2) by done.
    by rewrite Hf.
  - intros st1 st2 r st3 pre s post st4 st5 Hcs Hbs Hf -> Hpre Hcall.
    rewrite (dispatch_unfold n ev f cs bs _) by done.
    rewrite (for_conditions_pass _ a cs st st1) by done.
    rewrite (for_subs_ok _ InBefore a bs st1 st2) by done.
    rewrite Hf.
    by rewrite (for_subs_fails _ InAfter a pre s post st3 st4 e st5).
Qed.

(** ** Promotion *)

Lemma list_items_Some st l items :
  list_items st l = Some items ↔ heap st !! l = Some (PyList items).
Proof.
  unfold list_items. destruct (heap st !! l) as [[]|]; naive_solver.
Qed.

Lemma new_obj_spec o st r st' :
  new_obj alloc o st = (r, st') →
  heap st !! r = None ∧ heap st' = <[r := o]> (heap st)
  ∧ _events st' = _events st ∧ world st' = world st.
Proof.
  unfold new_obj. intros [= <- <-]. split; [|done].
  apply not_elem_of_dom, alloc_fresh.
Qed.

(** What [event] allocates and stores. *)
Lemma event_unfold f st ev st' :
  event alloc f st = (ev, st') →
  ∃ name l0 l1 l2,
    NoDup [ev; l0; l1; l2]
    ∧ Forall (λ r, heap st !! r = None) [ev; l0; l1; l2]
    ∧ heap st' = <[l2 := PyList []]> (<[l1 := PyList []]>
        (<[l0 := PyList []]> (<[ev := CallsSubs name f]> (heap st))))
    ∧ _events st' = <[ev := (l0, l1, l2)]> (_events st)
    ∧ world st' = world st.
Proof.
  unfold event.
  destruct (new_obj alloc (CallsSubs _ f) st) as [ev0 s0] eqn:H0.
  destruct (new_obj alloc (PyList []) s0) as [l0 s1] eqn:H1.
  destruct (new_obj alloc (PyList []) s1) as [l1 s2] eqn:H2.
  destruct (new_obj alloc (PyList []) s2) as [l2 s3] eqn:H3.
  intros [= <- <-]; simpl.
  apply new_obj_spec in H0 as (F0 & E0 & R0 & W0).
  apply new_obj_spec in H1 as (F1 & E1 & R1 & W1).
  apply new_obj_spec in H2 as (F2 & E2 & R2 & W2).
  apply new_obj_spec in H3 as (F3 & E3 & R3 & W3).
  rewrite E2, E1, E0 in F3. rewrite E1, E0 in F2. rewrite E0 in F1.
  apply lookup_insert_None in F1 as [F1 N10].
  apply lookup_insert_None in F2 as [F2 N21].
  apply lookup_insert_None in F2 as [F2 N20].
  apply lookup_insert_None in F3 as [F3 N32].
  apply lookup_insert_None in F3 as [F3 N31].
  apply lookup_insert_None in F3 as [F3 N30].
  eexists _, l0, l1, l2. split_and!.
  - rewrite !NoDup_cons. split_and!; try apply NoDup_nil_2;
      rewrite ?elem_of_cons, ?elem_of_nil; intuition congruence.
  - by repeat constructor.
  - by rewrite E3, E2, E1, E0.
  - by rewrite R3, R2, R1, R0.
  - by rewrite W3, W2, W1, W0.
Qed.

Lemma wf_list_allocated st ev rec k :
  wf st → _events st !! ev = Some rec → is_Some (heap st !! list_ref k rec).
Proof.
  intros Hwf Hrec.
  destruct (wf_lists st Hwf ev rec k Hrec) as [items Hitems].
  apply list_items_Some in Hitems. eauto.
Qed.

Lemma event_spec f st ev st' :
  wf st → event alloc f st = (ev, st') →
  heap st !! ev = None
  ∧ is_event st' ev f
  ∧ (∀ k, hooks st' ev k = Some [])
  ∧ (∀ r o, heap st !! r = Some o → heap st' !! r = Some o)
  ∧ (∀ ev', ev' ≠ ev → _events st' !! ev' = _events st !! ev')
  ∧ (∀ ev' k, ev' ≠ ev → hooks st' ev' k = hooks st ev' k)
  ∧ world st' = world st
  ∧ wf st'.
Proof.
  intros Hwf Hevent.
  apply event_unfold in Hevent
    as (name & l0 & l1 & l2 & Hnd & Hfresh & Hheap & Hreg & Hworld).
  rewrite !NoDup_cons, !elem_of_cons, !elem_of_nil in Hnd.
  rewrite !Forall_cons in Hfresh.
  destruct Hfresh as (Fev & F0 & F1 & F2 & _).
  assert (ev ≠ l0 ∧ ev ≠ l1 ∧ ev ≠ l2 ∧ l0 ≠ l1 ∧ l0 ≠ l2 ∧ l1 ≠ l2)
    as (N0 & N1 & N2 & N01 & N02 & N12) by intuition congruence.
  clear Hnd.
  assert (∀ r o, heap st !! r = Some o → heap st' !! r = Some o) as Hold.
  { intros r o Hr. rewrite Hheap.
    rewrite !lookup_insert_ne by congruence. done. }
  assert (heap st' !! ev = Some (CallsSubs name f)) as Hev.
  { rewrite Hheap. rewrite !lookup_insert_ne by congruence.
    apply lookup_insert_eq. }
  assert (∀ k, heap st' !! list_ref k (l0, l1, l2) = Some (PyList [])) as Hnew.
  { intros k. rewrite Hheap. destruct k; simpl.
    - rewrite !lookup_insert_ne by congruence. apply lookup_insert_eq.
    - rewrite lookup_insert_ne by congruence. apply lookup_insert_eq.
    - apply lookup_insert_eq. }
  assert (∀ k, heap st !! list_ref k (l0, l1, l2) = None) as Hnew_fresh.
  { by intros []. }
  assert (∀ r, heap st' !! r = heap st !! r
               ∨ r = ev ∨ ∃ k, r = list_ref k (l0, l1, l2)) as Hcases.
  { intros r. rewrite Hheap.
    destruct (decide (r = l2)) as [->|]; [right; right; by exists Condition|].
    destruct (decide (r = l1)) as [->|]; [right; right; by exists After|].
    destruct (decide (r = l0)) as [->|]; [right; right; by exists Before|].
    destruct (decide (r = ev)) as [->|]; [by right; left|].
    left. by rewrite !lookup_insert_ne by congruence. }
  assert (_events st' !! ev = Some (l0, l1, l2)) as Hrec.
  { rewrite Hreg. apply lookup_insert_eq. }
  assert (∀ ev', ev' ≠ ev → _events st' !! ev' = _events st !! ev') as Hother.
  { intros ev' Hne. rewrite Hreg. by apply lookup_insert_ne. }
  assert (∀ ev' rec k, _events st !! ev' = Some rec →
            list_items st' (list_ref k rec) = list_items st (list_ref k rec))
    as Hitems.
  { intros ev' rec k Hrec'.
    destruct (wf_lists st Hwf ev' rec k Hrec') as [items Hi]. rewrite Hi.
    apply list_items_Some. apply Hold. by apply list_items_Some. }
  split_and!; try done.
  - by exists name.
  - intros k. unfold hooks. rewrite Hrec; simpl.
    apply list_items_Some, Hnew.
  - intros ev' k Hne. unfold hooks. rewrite Hother by done.
    destruct (_events st !! ev') as [rec|] eqn:Hrec'; simpl; [|done].
    by eapply Hitems.
  - split.
    + intros ev' f' [name' Hf']. destruct (decide (ev' = ev)) as [->|Hne].
      { by rewrite Hrec. }
      rewrite Hother by done.
      destruct (Hcases ev') as [Heq|[->|[k ->]]]; [|done|].
      * apply (wf_wrapper st Hwf ev' f'). exists name'. by rewrite <- Heq.
      * rewrite Hnew in Hf'. done.
    + intros ev' rec k. destruct (decide (ev' = ev)) as [->|Hne].
      { rewrite Hrec. intros [= <-]. exists []. apply list_items_Some, Hnew. }
      rewrite Hother by done. intros Hrec'.
      rewrite (Hitems ev' rec k Hrec'). by eapply wf_lists.
    + intros ev1 ev2 rec1 rec2 k1 k2.
      destruct (decide (ev1 = ev)) as [->|Hne1];
        destruct (decide (ev2 = ev)) as [->|Hne2];
        rewrite ?Hrec, ?Hother by done.
      * intros [= <-] [= <-] Hk. split; [done|].
        destruct k1, k2; simpl in Hk; congruence.
      * intros [= <-] Hrec2 Hk.
        destruct (wf_list_allocated st ev2 rec2 k2 Hwf Hrec2) as [o Ho].
        rewrite <- Hk, Hnew_fresh in Ho. done.
      * intros Hrec1 [= <-] Hk.
        destruct (wf_list_allocated st ev1 rec1 k1 Hwf Hrec1) as [o Ho].
        rewrite Hk, Hnew_fresh in Ho. done.
      * by apply (wf_sep st Hwf).
Qed.

Lemma initial_wf (w : World) : wf (initial w).
Proof.
  split; simpl.
  - intros ev f [name Hev]. simpl in Hev. by rewrite lookup_empty in Hev.
  - intros ev rec k Hrec. by rewrite lookup_empty in Hrec.
  - intros ev1 ev2 rec1 rec2 k1 k2 Hrec. by rewrite lookup_empty in Hrec.
Qed.

(** In a well-formed state the record of an event is there, with its three
    lists: the lookup [_events[id(calls_subs)]] does not fail. *)
Lemma wf_event_hooks st ev f k : wf st → is_event st ev f → is_Some (hooks st ev k).
Proof.
  intros Hwf Hev.
  destruct (wf_wrapper st Hwf ev f Hev) as [rec Hrec].
  unfold hooks. rewrite Hrec; simpl. by eapply wf_lists.
Qed.

(** ** The invariant is kept *)

Lemma same_objects_wf st st' : same_objects st st' → wf st → wf st'.
Proof.
  intros [Hh He] [Hw Hl Hs]. split.
  - intros ev f. unfold is_event. rewrite He, Hh. apply Hw.
  - intros ev rec k. unfold list_items. rewrite He, Hh. apply Hl.
  - rewrite He. apply Hs.
Qed.

Lemma new_obj_wf o st :
  (∀ name f, o ≠ CallsSubs name f) → wf st → wf (new_obj alloc o st).2.
Proof.
  intros Ho Hwf.
  destruct (new_obj alloc o st) as [r st'] eqn:Hnew; simpl.
  apply new_obj_spec in Hnew as (Hfresh & Hheap & Hreg & _).
  assert (∀ r' o', heap st !! r' = Some o' → heap st' !! r' = Some o') as Hold.
  { intros r' o' Hr'. rewrite Hheap.
    rewrite lookup_insert_ne; [done|]. intros ->. congruence. }
  split.
  - intros ev f [name Hev]. rewrite Hreg.
    rewrite Hheap in Hev. destruct (decide (r = ev)) as [->|Hne].
    + rewrite lookup_insert_eq in Hev. injection Hev as ->.
      by destruct (Ho name f).
    + rewrite lookup_insert_ne in Hev by done.
      apply (wf_wrapper st Hwf ev f). by exists name.
  - intros ev rec k. rewrite Hreg. intros Hrec.
    destruct (wf_lists st Hwf ev rec k Hrec) as [items Hitems].
    exists items. apply list_items_Some, Hold. by apply list_items_Some.
  - rewrite Hreg. apply (wf_sep st Hwf).
Qed.

Lemma def_wf name code st : wf st → wf (def alloc name code st).2.
Proof. by apply new_obj_wf. Qed.

Lemma callable_object_wf code st : wf st → wf (callable_object alloc code st).2.
Proof. by apply new_obj_wf. Qed.

(** A list of a record is referred to, and so is not reclaimed. *)
Lemma not_referenced_list st r ev rec k :
  ¬ referenced st r → _events st !! ev = Some rec → list_ref k rec ≠ r.
Proof.
  intros Hn Hrec Heq. apply Hn. left. exists ev, rec. split; [done|].
  unfold record_lists. rewrite <- Heq. destruct k; set_solver.
Qed.

Lemma reclaim_list_items st r ev rec k :
  ¬ referenced st r → _events st !! ev = Some rec →
  list_items (reclaim r st) (list_ref k rec) = list_items st (list_ref k rec).
Proof.
  intros Hn Hrec. unfold list_items, reclaim. simpl.
  rewrite lookup_delete_ne; [done|].
  intros Heq. by eapply not_referenced_list.
Qed.

Lemma reclaim_hooks st r ev k :
  ¬ referenced st r → hooks (reclaim r st) ev k = hooks st ev k.
Proof.
  intros Hn. unfold hooks. simpl.
  destruct (_events st !! ev) as [rec|] eqn:Hrec; simpl; [|done].
  by eapply reclaim_list_items.
Qed.

Lemma reclaim_wf r st : wf st → ¬ referenced st r → wf (reclaim r st).
Proof.
  intros Hwf Hn. split; simpl.
  - intros ev f [name Hev]. simpl in Hev.
    apply lookup_delete_Some in Hev as [_ Hev].
    apply (wf_wrapper st Hwf ev f). by exists name.
  - intros ev rec k Hrec.
    change (is_Some (list_items (reclaim r st) (list_ref k rec))).
    rewrite (reclaim_list_items st r ev) by done. by eapply wf_lists.
  - apply (wf_sep st Hwf).
Qed.

Lemma voidargs_wf f st : wf st → wf (voidargs alloc f st).2.
Proof. by apply new_obj_wf. Qed.

Lemma event_wf f st : wf st → wf (event alloc f st).2.
Proof.
  intros Hwf. destruct (event alloc f st) as [ev st'] eqn:Hevent.
  by apply (event_spec f st ev st' Hwf Hevent).
Qed.

Lemma call_wf n fn a st : wf st → wf (state_after (call n fn a st) st).
Proof.
  intros Hwf. pose proof (call_keeps n fn a st) as Hk.
  destruct (call n fn a st); simpl in *; eauto using same_objects_wf.
Qed.

(** ** Registration *)

(** The three decorators differ in the list they append to. *)
Lemma decorator_for_unfold k ev f st :
  decorator_for k ev f st =
    match _events st !! ev with
    | None => raise_not_registered ev st
    | Some rec =>
        match list_append (list_ref k rec) f st with
        | Ok _ st' => Ok f st'
        | Err e st' => Err e st'
        | Timeout => Timeout
        end
    end.
Proof.
  destruct k; simpl;
    unfold run_before_decorator, run_after_decorator, condition_for_decorator;
    by destruct (_events st !! ev) as [[[before after] conditions]|].
Qed.

Lemma register_unfold k ev fn st :
  register k ev fn st = apply_if_given (decorator_for k ev) fn st.
Proof. by destruct k. Qed.

(** A registration on a promoted event appends to one list object and
    touches nothing else. *)
Lemma decorator_for_spec k ev f st l :
  wf st → hooks st ev k = Some l →
  ∃ st', decorator_for k ev f st = Ok f st'
    ∧ hooks st' ev k = Some (l ++ [f])
    ∧ (∀ ev' k', (ev', k') ≠ (ev, k) → hooks st' ev' k' = hooks st ev' k')
    ∧ _events st' = _events st
    ∧ world st' = world st
    ∧ (∀ r o, heap st !! r = Some o → callable o = true →
         heap st' !! r = Some o)
    ∧ wf st'.
Proof.
  intros Hwf Hl. apply hooks_Some in Hl as (rec & Hrec & Hl).
  apply list_items_Some in Hl.
  set (lr := list_ref k rec) in *.
  set (st' := set_heap st (<[lr := PyList (l ++ [f])]> (heap st))).
  assert (decorator_for k ev f st = Ok f st') as Hdec.
  { rewrite decorator_for_unfold, Hrec. unfold list_append.
    fold lr. by rewrite Hl. }
  assert (∀ r o, heap st !! r = Some o → callable o = true →
            heap st' !! r = Some o) as Hcallable.
  { intros r o Hr Ho. simpl. destruct (decide (r = lr)) as [->|Hne].
    - rewrite Hl in Hr. by injection Hr as <-.
    - by rewrite lookup_insert_ne. }
  assert (∀ ev' rec' k', _events st !! ev' = Some rec' →
            (ev', k') ≠ (ev, k) → list_ref k' rec' ≠ lr) as Hsep.
  { intros ev' rec' k' Hrec' Hne Heq. apply Hne.
    destruct (wf_sep st Hwf ev' ev rec' rec k' k Hrec' Hrec Heq). congruence. }
  exists st'. split_and!; try done.
  - unfold hooks. simpl. rewrite Hrec; simpl.
    apply list_items_Some. simpl. apply lookup_insert_eq.
  - intros ev' k' Hne. unfold hooks. simpl.
    destruct (_events st !! ev') as [rec'|] eqn:Hrec'; simpl; [|done].
    unfold list_items. simpl.
    by rewrite lookup_insert_ne by (symmetry; by eapply Hsep).
  - split; simpl.
    + intros ev' f' [name Hev']. apply (wf_wrapper st Hwf ev' f').
      exists name. simpl in Hev'. destruct (decide (ev' = lr)) as [->|Hne].
      * by rewrite lookup_insert_eq in Hev'.
      * by rewrite lookup_insert_ne in Hev'.
    + intros ev' rec' k' Hrec'.
      destruct (wf_lists st Hwf ev' rec' k' Hrec') as [items Hitems].
      apply list_items_Some in Hitems.
      destruct (decide (list_ref k' rec' = lr)) as [Heq|Hne].
      * exists (l ++ [f]). apply list_items_Some. simpl.
        rewrite Heq. apply lookup_insert_eq.
      * exists items. apply list_items_Some. simpl.
        by rewrite lookup_insert_ne.
    + apply (wf_sep st Hwf).
Qed.

Lemma decorator_for_wf k ev f st :
  wf st → wf (state_after (decorator_for k ev f st) st).
Proof.
  intros Hwf. rewrite decorator_for_unfold.
  destruct (_events st !! ev) as [rec|] eqn:Hrec.
  - destruct (wf_lists st Hwf ev rec k Hrec) as [l Hl].
    assert (hooks st ev k = Some l) as Hhooks
      by (unfold hooks; by rewrite Hrec).
    destruct (decorator_for_spec k ev f st l Hwf Hhooks)
      as (st' & Hdec & _ & _ & _ & _ & _ & Hwf').
    rewrite decorator_for_unfold, Hrec in Hdec. by rewrite Hdec.
  - unfold raise_not_registered. by destruct (getattr_name st ev).
Qed.

Lemma register_wf k ev fn st :
  wf st → wf (state_after (register k ev fn st) st).
Proof.
  intros Hwf. rewrite register_unfold. destruct fn as [f|]; simpl; [|done].
  pose proof (decorator_for_wf k ev f st Hwf) as Hd.
  by destruct (decorator_for k ev f st).
Qed.

(** Every state a host program gets to is well-formed. *)
Lemma reachable_wf st : reachable alloc st → wf st.
Proof.
  induction 1;
    eauto using initial_wf, def_wf, callable_object_wf, reclaim_wf, event_wf,
      voidargs_wf, register_wf, decorator_for_wf, call_wf.
Qed.

Lemma decorator_for_unregistered k ev o name f st :
  heap st !! ev = Some o → obj_name o = Some name →
  _events st !! ev = None →
  decorator_for k ev f st
  = Err (EventNotRegistered (not_registered_msg name)) st.
Proof.
  intros Ho Hname Hnone. rewrite decorator_for_unfold, Hnone.
  unfold raise_not_registered, getattr_name. rewrite Ho; simpl.
  by rewrite Hname.
Qed.

(** As long as no record is left over from a reclaimed wrapper, what was
    never promoted has no entry in [_events]: the entries are those of the
    wrappers [event] made. *)
Lemma never_promoted_no_entry st ev o :
  no_stale st → heap st !! ev = Some o →
  (∀ name f, o ≠ CallsSubs name f) →
  _events st !! ev = None.
Proof.
  intros Hns Ho Hnot. apply eq_None_not_Some. intros Hsome.
  destruct (Hns ev Hsome) as (f & name & Hev).
  rewrite Ho in Hev. injection Hev as ->. by destruct (Hnot name f).
Qed.

(** C3 (amended). A callable that carries a [__name__] and whose identity
    has no entry in [_events] is rejected by each of the three registration
    operations, in the direct form and when the decorator is applied:
    [EventNotRegistered] is raised, its message names the callable, and the
    state it is raised in is the state before the call: [_events] and every
    list object are as they were. *)
Theorem unregistered_target_rejected k ev o name f st :
  heap st !! ev = Some o → obj_name o = Some name →
  _events st !! ev = None →
  decorator_for k ev f st
  = Err (EventNotRegistered (not_registered_msg name)) st
  ∧ register k ev (Some f) st
    = Err (EventNotRegistered (not_registered_msg name)) st.
Proof.
  intros Ho Hname Hnone.
  pose proof (decorator_for_unregistered k ev o name f st Ho Hname Hnone) as Hd.
  split; [done|].
  rewrite register_unfold. unfold apply_if_given. by rewrite Hd.
Qed.

(** C10 (amended). Called with an event alone, each registration operation
    returns its decorator and leaves the state as it is, whatever [ev] is.
    For an [ev] that carries a [__name__] and whose identity has no entry in
    [_events], [EventNotRegistered] is raised when that decorator is applied
    to a function. *)
Theorem partial_application_never_raises k ev st :
  register k ev None st = Ok (decorator_for k ev) st
  ∧ ∀ o name f,
      heap st !! ev = Some o → obj_name o = Some name →
      _events st !! ev = None →
      decorator_for k ev f st
      = Err (EventNotRegistered (not_registered_msg name)) st.
Proof.
  split.
  - by rewrite register_unfold.
  - intros o name f Ho Hname Hnone. by eapply decorator_for_unregistered.
Qed.

(** C7. On a promoted event, the decorator of each registration operation
    appends the function it is applied to and returns that function; the
    direct form [register k ev (Some f)] leaves the state the decorator
    applied to [f] leaves and returns the decorator, which registers
    whatever it is applied to next. *)
Theorem registration_forms k ev f l st :
  wf st → hooks st ev k = Some l →
  ∃ st',
    register k ev None st = Ok (decorator_for k ev) st
    ∧ decorator_for k ev f st = Ok f st'
    ∧ register k ev (Some f) st = Ok (decorator_for k ev) st'
    ∧ hooks st' ev k = Some (l ++ [f])
    ∧ ∀ g, ∃ st'', decorator_for k ev g st' = Ok g st''
                   ∧ hooks st'' ev k = Some (l ++ [f; g]).
Proof.
  intros Hwf Hl.
  destruct (decorator_for_spec k ev f st l Hwf Hl)
    as (st' & Hdec & Hl' & _ & _ & _ & _ & Hwf').
  exists st'. split_and!; try done.
  - by rewrite register_unfold.
  - rewrite register_unfold. unfold apply_if_given. by rewrite Hdec.
  - intros g.
    destruct (decorator_for_spec k ev g st' (l ++ [f]) Hwf' Hl')
      as (st'' & Hdec' & Hl'' & _).
    exists st''. split; [done|]. by rewrite <- app_assoc in Hl''.
Qed.

(** C8. A registration of kind [k] on the event [ev1] appends to the list
    of kind [k] of [ev1]; the two other lists of [ev1] and the three lists
    of every other event [ev2] are as before. *)
Theorem registration_frame k ev1 ev2 f l st :
  wf st → ev1 ≠ ev2 →
  hooks st ev1 k = Some l →
  ∃ st',
    decorator_for k ev1 f st = Ok f st'
    ∧ register k ev1 (Some f) st = Ok (decorator_for k ev1) st'
    ∧ hooks st' ev1 k = Some (l ++ [f])
    ∧ (∀ k', k' ≠ k → hooks st' ev1 k' = hooks st ev1 k')
    ∧ (∀ k', hooks st' ev2 k' = hooks st ev2 k').
Proof.
  intros Hwf Hne Hl.
  destruct (decorator_for_spec k ev1 f st l Hwf Hl)
    as (st' & Hdec & Hl' & Hframe & _).
  exists st'. split_and!; try done.
  - rewrite register_unfold. unfold apply_if_given. by rewrite Hdec.
  - intros k' Hk. apply Hframe. congruence.
  - intros k'. apply Hframe. congruence.
Qed.


(** ** Reading a trace *)

Lemma callees_app p t1 t2 : callees p (t1 ++ t2) = callees p t1 ++ callees p t2.
Proof. unfold callees. by rewrite filter_app, fmap_app. Qed.

Lemma callees_cons_same p a sub t :
  callees p (Called p sub a :: t) = sub :: callees p t.
Proof. unfold callees. by rewrite filter_cons_True. Qed.

Lemma callees_cons_other p q a sub t :
  p ≠ q → callees p (Called q sub a :: t) = callees p t.
Proof. intros Hne. unfold callees. by rewrite filter_cons_False. Qed.

Lemma callees_calls_same p a subs : callees p (calls p a subs) = subs.
Proof.
  induction subs as [|s subs IH]; [done|].
  by rewrite calls_cons, callees_cons_same, IH.
Qed.

Lemma callees_calls_other p q a subs : p ≠ q → callees p (calls q a subs) = [].
Proof.
  intros Hne. induction subs as [|s subs IH]; [done|].
  by rewrite calls_cons, callees_cons_other.
Qed.

(** The calls of a dispatch, whatever its outcome: conditions, then
    before-hooks, then the body, then after-hooks, each list in its order
    and as far as the dispatch got. *)
Lemma dispatch_shape n ev f cs bs afs a st :
  is_event st ev f →
  hooks st ev Condition = Some cs →
  hooks st ev Before = Some bs →
  hooks st ev After = Some afs →
  ∃ cs' bs' body afs',
    (dispatch n ev a st).1
    = calls InCondition a cs' ++ calls InBefore a bs'
        ++ calls InBody a body ++ calls InAfter a afs'
    ∧ cs' `prefix_of` cs ∧ bs' `prefix_of` bs
    ∧ body `prefix_of` [f] ∧ afs' `prefix_of` afs.
Proof.
  intros Hev Hc Hb Ha.
  rewrite (dispatch_unfold n ev f cs bs afs) by done.
  destruct (for_conditions_prefix (call n) a cs st) as (cs' & Hcs' & Ht1).
  destruct (for_conditions (call n) cs a st) as [t1 [[] st1| |]];
    simpl in Ht1; subst t1;
    try (exists cs', [], [], []; simpl; rewrite !app_nil_r;
         split_and!; try done; apply prefix_nil).
  destruct (for_subs_prefix (call n) InBefore a bs st1) as (bs' & Hbs' & Ht2).
  destruct (for_subs (call n) InBefore bs a st1) as [t2 [[] st2| |]];
    simpl in Ht2; subst t2;
    try (exists cs', bs', [], []; simpl; rewrite !app_nil_r;
         split_and!; try done; apply prefix_nil).
  destruct (call n f a st2) as [r st3| |];
    try (exists cs', bs', [f], []; simpl; split_and!; try done;
         apply prefix_nil).
  destruct (for_subs_prefix (call n) InAfter a afs st3) as (afs' & Hafs' & Ht4).
  destruct (for_subs (call n) InAfter afs a st3) as [t4 [[] st4| |]];
    simpl in Ht4; subst t4; by exists cs', bs', [f], afs'.
Qed.

(** In every dispatch, the callables called in the phase of a list are the
    first items of that list, in list order. *)
Lemma dispatch_callees_prefix n ev f k l a st :
  is_event st ev f →
  (∀ k', is_Some (hooks st ev k')) →
  hooks st ev k = Some l →
  callees (hook_phase k) (dispatch n ev a st).1 `prefix_of` l.
Proof.
  intros Hev Hall Hl.
  destruct (Hall Condition) as [cs Hcs].
  destruct (Hall Before) as [bs Hbs].
  destruct (Hall After) as [afs Hafs].
  destruct (dispatch_shape n ev f cs bs afs a st)
    as (cs' & bs' & body & afs' & -> & Hcs' & Hbs' & _ & Hafs'); try done.
  rewrite !callees_app. destruct k; simpl.
  - rewrite Hl in Hbs. injection Hbs as <-.
    rewrite callees_calls_same, !callees_calls_other by done.
    by rewrite app_nil_r.
  - rewrite Hl in Hafs. injection Hafs as <-.
    by rewrite callees_calls_same, !callees_calls_other by done.
  - rewrite Hl in Hcs. injection Hcs as <-.
    rewrite callees_calls_same, !callees_calls_other by done.
    by rewrite app_nil_r.
Qed.

(** A dispatch that returns after calling the body has called every item of
    the three lists. *)
Lemma dispatch_complete_inv n ev f cs bs afs a st t r st' :
  is_event st ev f →
  hooks st ev Condition = Some cs →
  hooks st ev Before = Some bs →
  hooks st ev After = Some afs →
  dispatch n ev a st = (t, Ok r st') →
  Called InBody f a ∈ t →
  t = calls InCondition a cs ++ calls InBefore a bs
        ++ Called InBody f a :: calls InAfter a afs.
Proof.
  intros Hev Hc Hb Ha Hd Hbody.
  rewrite (dispatch_unfold n ev f cs bs afs) in Hd by done.
  pose proof (for_conditions_phase (call n) a cs st) as Hphase.
  destruct (for_conditions (call n) cs a st) as [t1 [[] st1| |]] eqn:H1;
    simpl in *; try done.
  - apply for_conditions_true_inv in H1 as ->.
    destruct (for_subs (call n) InBefore bs a st1) as [t2 [[] st2| |]] eqn:H2;
      try done.
    apply for_subs_ok_inv in H2 as ->.
    destruct (call n f a st2) as [r' st3| |]; try done.
    destruct (for_subs (call n) InAfter afs a st3) as [t4 [[] st4| |]] eqn:H4;
      try done.
    apply for_subs_ok_inv in H4 as ->.
    by injection Hd as <- _ _.
  - injection Hd as <- _ _.
    rewrite Forall_forall in Hphase. by apply Hphase in Hbody.
Qed.

(** The calls of a dispatch in which every condition passes and every call
    returns. *)
Lemma dispatch_complete n ev f cs bs afs a st st1 st2 r st3 st4 :
  is_event st ev f →
  hooks st ev Condition = Some cs →
  hooks st ev Before = Some bs →
  hooks st ev After = Some afs →
  all_pass (call n) a cs st st1 →
  all_return (call n) a bs st1 st2 →
  call n f a st2 = Ok r st3 →
  all_return (call n) a afs st3 st4 →
  dispatch n ev a st
  = (calls InCondition a cs ++ calls InBefore a bs
       ++ Called InBody f a :: calls InAfter a afs, Ok r st4).
Proof.
  intros Hev Hc Hb Ha Hcs Hbs Hf Hafs.
  rewrite (dispatch_unfold n ev f cs bs afs) by done.
  rewrite (for_conditions_pass _ a cs st st1) by done.
  rewrite (for_subs_ok _ InBefore a bs st1 st2) by done.
  rewrite Hf.
  by rewrite (for_subs_ok _ InAfter a afs st3 st4).
Qed.

(** The callees of a complete dispatch, phase by phase. *)
Lemma callees_complete k f cs bs afs a :
  callees (hook_phase k)
    (calls InCondition a cs ++ calls InBefore a bs
       ++ Called InBody f a :: calls InAfter a afs)
  = match k with Before => bs | After => afs | Condition => cs end.
Proof.
  rewrite !callees_app. destruct k; simpl.
  - rewrite callees_calls_other, callees_calls_same by done.
    rewrite callees_cons_other, callees_calls_other by done.
    by rewrite app_nil_r.
  - rewrite !callees_calls_other by done.
    by rewrite callees_cons_other, callees_calls_same by done.
  - rewrite callees_calls_same, callees_calls_other by done.
    rewrite callees_cons_other, callees_calls_other by done.
    by rewrite app_nil_r.
Qed.

(** C5 (amended). Registering [s] twice on the list of kind [k] of a
    promoted event puts [s] at the end of that list, twice, after what was
    registered before and in its order; the other lists are as before, and
    whatever is registered later comes behind.  Every later dispatch calls
    in the phase of [k] the items of that list in list order, as far as it
    gets; a dispatch in which every condition returns a true value and
    every hook and the body return comes to its end and has called all of
    them: [s] twice, in the two positions it was registered. *)
Theorem duplicate_registration k ev f s l st :
  wf st → is_event st ev f → hooks st ev k = Some l →
  ∃ st1 st2,
    decorator_for k ev s st = Ok s st1
    ∧ decorator_for k ev s st1 = Ok s st2
    ∧ hooks st1 ev k = Some (l ++ [s])
    ∧ hooks st2 ev k = Some (l ++ [s; s])
    ∧ (∀ ev' k', (ev', k') ≠ (ev, k) → hooks st2 ev' k' = hooks st ev' k')
    ∧ is_event st2 ev f
    ∧ ∀ n a (st3 : state) later cs bs afs,
        is_event st3 ev f →
        hooks st3 ev k = Some (l ++ [s; s] ++ later) →
        hooks st3 ev Condition = Some cs →
        hooks st3 ev Before = Some bs →
        hooks st3 ev After = Some afs →
        callees (hook_phase k) (dispatch n ev a st3).1
          `prefix_of` l ++ [s; s] ++ later
        ∧ ∀ st4 st5 r st6 st7,
            all_pass (call n) a cs st3 st4 →
            all_return (call n) a bs st4 st5 →
            call n f a st5 = Ok r st6 →
            all_return (call n) a afs st6 st7 →
            ∃ t, dispatch n ev a st3 = (t, Ok r st7)
                 ∧ callees (hook_phase k) t = l ++ [s; s] ++ later.
Proof.
  intros Hwf Hev Hl.
  destruct (decorator_for_spec k ev s st l Hwf Hl)
    as (st1 & Hd1 & Hl1 & Hf1 & _ & _ & Hc1 & Hwf1).
  destruct (decorator_for_spec k ev s st1 (l ++ [s]) Hwf1 Hl1)
    as (st2 & Hd2 & Hl2 & Hf2 & _ & _ & Hc2 & Hwf2).
  rewrite <- app_assoc in Hl2; simpl in Hl2.
  exists st1, st2. split_and!; try done.
  - intros ev' k' Hne. by rewrite Hf2, Hf1.
  - destruct Hev as [name Hev]. exists name.
    apply Hc2; [|done]. by apply Hc1.
  - intros n a st3 later cs bs afs Hev3 Hl3 Hcs Hbs Hafs. split.
    + eapply dispatch_callees_prefix; [done| |done].
      intros []; eauto.
    + intros st4 st5 r st6 st7 Hpass Hbefore Hbody Hafter.
      eexists. split.
      * by eapply dispatch_complete.
      * rewrite callees_complete. destruct k; congruence.
Qed.

(** ** The adapter *)

Lemma call_voided n v name g a st :
  heap st !! v = Some (Voided name g) →
  call (S n) v a st = match call n g no_args st with
                      | Ok _ st' => Ok VNone st'
                      | Err e st' => Err e st'
                      | Timeout => Timeout
                      end.
Proof.
  intros Hv. simpl. rewrite Hv. unfold voided.
  by destruct (call n g no_args st).
Qed.

Lemma call_voided_none n v name g a st r st' :
  heap st !! v = Some (Voided name g) →
  call n v a st = Ok r st' → r = VNone.
Proof.
  intros Hv. destruct n as [|n]; [done|].
  rewrite (call_voided n v name g) by done.
  destruct (call n g no_args st); congruence.
Qed.

Lemma all_pass_same_objects n a cs st st' :
  all_pass (call n) a cs st st' → same_objects st st'.
Proof.
  induction 1 as [|c cs st v st1 st' Hc _ _ IH]; [apply same_objects_refl|].
  eapply same_objects_trans; [|done]. by eapply call_ok_same.
Qed.

(** A [voided] closure among the conditions never lets the loop over the
    conditions come to its end. *)
Lemma for_conditions_voided n a cs v name g st t st' :
  heap st !! v = Some (Voided name g) → v ∈ cs →
  for_conditions (call n) cs a st ≠ (t, Ok true st').
Proof.
  intros Hv Hin. revert st t Hv.
  induction cs as [|c cs IH]; intros st t Hv; [by apply elem_of_nil in Hin|].
  simpl. unfold_M.
  destruct (call n c a st) as [r st1| |] eqn:Hc; try done.
  assert (heap st1 !! v = Some (Voided name g)) as Hv1.
  { apply call_ok_same in Hc as [-> _]. done. }
  destruct (truthy st1 r) eqn:Hr; simpl; [|done].
  apply elem_of_cons in Hin as [<-|Hin].
  - apply (call_voided_none n v name g) in Hc as ->; done.
  - specialize (IH Hin st1).
    destruct (for_conditions (call n) cs a st1) as [t' res] eqn:Hrest.
    intros [= <- ->]. by eapply IH.
Qed.

Lemma dispatch_voided_condition n ev f cs bs afs v name g a st t res :
  is_event st ev f →
  hooks st ev Condition = Some cs →
  hooks st ev Before = Some bs →
  hooks st ev After = Some afs →
  heap st !! v = Some (Voided name g) → v ∈ cs →
  dispatch n ev a st = (t, res) →
  Forall (λ e, ce_phase e = InCondition) t
  ∧ ∀ r st', res = Ok r st' → r = VNone.
Proof.
  intros Hev Hc Hb Ha Hv Hin Hd.
  rewrite (dispatch_unfold n ev f cs bs afs) in Hd by done.
  pose proof (for_conditions_phase (call n) a cs st) as Hphase.
  pose proof (for_conditions_voided n a cs v name g st) as Hblocked.
  destruct (for_conditions (call n) cs a st) as [t1 [[] st1| |]] eqn:H1;
    simpl in *.
  - by destruct (Hblocked t1 st1).
  - injection Hd as <- <-. split; [done|]. by intros r st' [= <- _].
  - by injection Hd as <- <-.
  - by injection Hd as <- <-.
Qed.

(** C9. [voidargs g] makes a new callable and touches neither [_events]
    nor the host state.  Called on any arguments, the new callable calls
    [g] on no argument and returns [None] when [g] returns, whatever [g]
    returned.  Once it is among the conditions of an event, every dispatch
    of that event calls conditions only, never a before-hook, the body or
    an after-hook, and returns nothing but [None]; it does return [None]
    when the conditions before it pass and [g] returns. *)
Theorem voidargs_discards g st v st' :
  voidargs alloc g st = (v, st') →
  heap st !! v = None
  ∧ (∃ name, heap st' = <[v := Voided name g]> (heap st))
  ∧ _events st' = _events st
  ∧ world st' = world st
  ∧ (∀ n a s,
       heap s !! v = heap st' !! v →
       call (S n) v a s = match call n g no_args s with
                          | Ok _ s' => Ok VNone s'
                          | Err e s' => Err e s'
                          | Timeout => Timeout
                          end)
  ∧ (∀ n ev f cs bs afs a s t res,
       heap s !! v = heap st' !! v →
       is_event s ev f →
       hooks s ev Condition = Some cs →
       hooks s ev Before = Some bs →
       hooks s ev After = Some afs →
       v ∈ cs →
       dispatch n ev a s = (t, res) →
       Forall (λ e, ce_phase e = InCondition) t
       ∧ ∀ r s', res = Ok r s' → r = VNone)
  ∧ (∀ n ev f pre post bs afs a s s1 r s2,
       heap s !! v = heap st' !! v →
       is_event s ev f →
       hooks s ev Condition = Some (pre ++ v :: post) →
       hooks s ev Before = Some bs →
       hooks s ev After = Some afs →
       all_pass (call (S n)) a pre s s1 →
       call n g no_args s1 = Ok r s2 →
       dispatch (S n) ev a s
       = (calls InCondition a (pre ++ [v]), Ok VNone s2)).
Proof.
  unfold voidargs. intros Hvoid.
  apply new_obj_spec in Hvoid as (Hfresh & Hheap & Hreg & Hworld).
  assert (heap st' !! v
          = Some (Voided (default "voided"%string (getattr_name st g)) g))
    as Hv by (rewrite Hheap; apply lookup_insert_eq).
  split_and!; try done.
  - by eexists.
  - intros n a s Hs. rewrite Hv in Hs. by eapply call_voided.
  - intros n ev f cs bs afs a s t res Hs Hev Hc Hb Ha Hin Hd.
    rewrite Hv in Hs. by eapply dispatch_voided_condition.
  - intros n ev f pre post bs afs a s s1 r s2 Hs Hev Hc Hb Ha Hpre Hg.
    rewrite Hv in Hs.
    rewrite (dispatch_unfold (S n) ev f _ bs afs) by done.
    assert (heap s1 !! v = heap s !! v) as Hs1.
    { apply all_pass_same_objects in Hpre as [-> _]. done. }
    rewrite (for_conditions_veto _ a pre v post s s1 VNone s2); try done.
    rewrite (call_voided n v _ g) by (by rewrite Hs1). by rewrite Hg.
Qed.

(** * Further properties of the module *)

(** ** What a hook list, once written, goes through *)

Lemma new_obj_hooks o st ev k :
  wf st → hooks (new_obj alloc o st).2 ev k = hooks st ev k.
Proof.
  intros Hwf.
  destruct (new_obj alloc o st) as [r st'] eqn:Hnew; simpl.
  apply new_obj_spec in Hnew as (Hfresh & Hheap & Hreg & _).
  unfold hooks. rewrite Hreg.
  destruct (_events st !! ev) as [rec|] eqn:Hrec; simpl; [|done].
  destruct (wf_list_allocated st ev rec k Hwf Hrec) as [o' Ho'].
  unfold list_items. rewrite Hheap, lookup_insert_ne; [done|].
  intros ->. congruence.
Qed.

Lemma new_obj_keeps o st r o' :
  heap st !! r = Some o' → heap (new_obj alloc o st).2 !! r = Some o'.
Proof.
  intros Hr. destruct (new_obj alloc o st) as [r0 st'] eqn:Hnew; simpl.
  apply new_obj_spec in Hnew as (Hfresh & -> & _).
  rewrite lookup_insert_ne; [done|]. intros ->. congruence.
Qed.

Lemma event_keeps f st r o :
  wf st → heap st !! r = Some o → heap (event alloc f st).2 !! r = Some o.
Proof.
  intros Hwf Hr. destruct (event alloc f st) as [ev0 st'] eqn:Hevent; simpl.
  by apply (event_spec f st ev0 st' Hwf Hevent).
Qed.

(** The record of an event whose wrapper exists is not the one a promotion
    writes. *)
Lemma event_hooks f st ev g k :
  wf st → is_event st ev g →
  hooks (event alloc f st).2 ev k = hooks st ev k.
Proof.
  intros Hwf [name Hev].
  destruct (event alloc f st) as [ev0 st'] eqn:Hevent; simpl.
  destruct (event_spec f st ev0 st' Hwf Hevent)
    as (Hfresh & _ & _ & _ & _ & Hhooks & _).
  apply Hhooks. intros ->. congruence.
Qed.

Lemma decorator_for_grows k ev f st ev' k' l :
  wf st → hooks st ev' k' = Some l →
  ∃ more,
    hooks (state_after (decorator_for k ev f st) st) ev' k' = Some (l ++ more).
Proof.
  intros Hwf Hl.
  destruct (hooks st ev k) as [l0|] eqn:Hl0.
  - destruct (decorator_for_spec k ev f st l0 Hwf Hl0)
      as (st' & -> & Hl' & Hframe & _); simpl.
    destruct (decide ((ev', k') = (ev, k))) as [[= -> ->]|Hne].
    + exists [f]. rewrite Hl'. congruence.
    + exists []. by rewrite Hframe, app_nil_r.
  - exists []. rewrite app_nil_r, <- Hl. f_equal.
    rewrite decorator_for_unfold.
    destruct (_events st !! ev) as [rec|] eqn:Hrec.
    + destruct (wf_lists st Hwf ev rec k Hrec) as [items Hitems].
      unfold hooks in Hl0. rewrite Hrec in Hl0; simpl in Hl0. congruence.
    + unfold raise_not_registered. by destruct (getattr_name st ev).
Qed.

Lemma register_grows k ev fn st ev' k' l :
  wf st → hooks st ev' k' = Some l →
  ∃ more,
    hooks (state_after (register k ev fn st) st) ev' k' = Some (l ++ more).
Proof.
  intros Hwf Hl. rewrite register_unfold.
  destruct fn as [f|]; simpl; [|exists []; by rewrite app_nil_r].
  destruct (decorator_for_grows k ev f st ev' k' l Hwf Hl) as [more Hmore].
  exists more. by destruct (decorator_for k ev f st).
Qed.

(** A registration changes list objects only. *)
Lemma decorator_for_keeps_callables k ev f st r o :
  wf st → heap st !! r = Some o → callable o = true →
  heap (state_after (decorator_for k ev f st) st) !! r = Some o.
Proof.
  intros Hwf Hr Ho.
  destruct (hooks st ev k) as [l0|] eqn:Hl0.
  - destruct (decorator_for_spec k ev f st l0 Hwf Hl0)
      as (st' & -> & _ & _ & _ & _ & Hkeeps & _); simpl. by apply Hkeeps.
  - rewrite decorator_for_unfold.
    destruct (_events st !! ev) as [rec|] eqn:Hrec.
    + destruct (wf_lists st Hwf ev rec k Hrec) as [items Hitems].
      unfold hooks in Hl0. rewrite Hrec in Hl0; simpl in Hl0. congruence.
    + unfold raise_not_registered. by destruct (getattr_name st ev).
Qed.

Lemma register_keeps_callables k ev fn st r o :
  wf st → heap st !! r = Some o → callable o = true →
  heap (state_after (register k ev fn st) st) !! r = Some o.
Proof.
  intros Hwf Hr Ho. rewrite register_unfold.
  destruct fn as [f|]; simpl; [|done].
  pose proof (decorator_for_keeps_callables k ev f st r o Hwf Hr Ho) as Hk.
  by destruct (decorator_for k ev f st).
Qed.

Lemma evolves_wf keep st st' : evolves alloc keep st st' → wf st → wf st'.
Proof.
  induction 1; intros Hwf;
    eauto using def_wf, callable_object_wf, reclaim_wf, event_wf,
      voidargs_wf, register_wf, decorator_for_wf, call_wf.
Qed.

(** X5. As long as the wrapper of an event is held on to, nothing the host
    program does next (defining functions, making callable objects,
    promoting and adapting, registering hooks, calling anything, letting
    other objects go) removes or moves a hook of that event: the wrapper is
    still there, and each of its hook lists is what it was, followed by
    what was appended since. *)
Theorem hooks_only_grow keep st st' ev f k l :
  wf st → ev ∈ keep → is_event st ev f →
  evolves alloc keep st st' →
  hooks st ev k = Some l →
  is_event st' ev f ∧ ∃ more, hooks st' ev k = Some (l ++ more).
Proof.
  intros Hwf Hkeep [name Hev] Hevolves Hl.
  assert (callable (CallsSubs name f : @obj World) = true) as Hcallable by done.
  induction Hevolves as
    [st|nm code st st' Hevo IH|code st st' Hevo IH|r st st' Hevo IH Hr Hnr
    |g st st' Hevo IH|g st st' Hevo IH
    |k0 ev0 fn st st' Hevo IH|k0 ev0 g st st' Hevo IH
    |fuel fn a st st' Hevo IH].
  - split; [by exists name|]. exists []. by rewrite app_nil_r.
  - destruct (IH Hwf Hev Hl) as [[name' Hev'] [more Hmore]]. split.
    + exists name'. by apply new_obj_keeps.
    + exists more. unfold def. rewrite new_obj_hooks; [done|].
      by eapply evolves_wf.
  - destruct (IH Hwf Hev Hl) as [[name' Hev'] [more Hmore]]. split.
    + exists name'. by apply new_obj_keeps.
    + exists more. unfold callable_object. rewrite new_obj_hooks; [done|].
      by eapply evolves_wf.
  - destruct (IH Hwf Hev Hl) as [[name' Hev'] [more Hmore]]. split.
    + exists name'. simpl. rewrite lookup_delete_ne; [done|].
      intros ->. done.
    + exists more. by rewrite reclaim_hooks.
  - destruct (IH Hwf Hev Hl) as [[name' Hev'] [more Hmore]].
    assert (wf st') as Hwf' by by eapply evolves_wf. split.
    + exists name'. by apply event_keeps.
    + exists more. rewrite (event_hooks g st' ev f); [done|done|].
      by exists name'.
  - destruct (IH Hwf Hev Hl) as [[name' Hev'] [more Hmore]]. split.
    + exists name'. by apply new_obj_keeps.
    + exists more. unfold voidargs. rewrite new_obj_hooks; [done|].
      by eapply evolves_wf.
  - destruct (IH Hwf Hev Hl) as [[name' Hev'] [more Hmore]].
    assert (wf st') as Hwf' by by eapply evolves_wf. split.
    + exists name'. by apply register_keeps_callables.
    + destruct (register_grows k0 ev0 fn st' ev k (l ++ more))
        as [more' Hmore']; [done | done |].
      exists (more ++ more'). by rewrite app_assoc.
  - destruct (IH Hwf Hev Hl) as [[name' Hev'] [more Hmore]].
    assert (wf st') as Hwf' by by eapply evolves_wf. split.
    + exists name'. by apply decorator_for_keeps_callables.
    + destruct (decorator_for_grows k0 ev0 g st' ev k (l ++ more))
        as [more' Hmore']; [done | done |].
      exists (more ++ more'). by rewrite app_assoc.
  - destruct (IH Hwf Hev Hl) as [[name' Hev'] [more Hmore]].
    pose proof (call_keeps fuel fn a st') as Hk.
    destruct (call fuel fn a st') as [v s|e s|]; simpl in *.
    + split; [|exists more; by rewrite (same_objects_hooks st')].
      exists name'. destruct Hk as [-> _]. done.
    + split; [|exists more; by rewrite (same_objects_hooks st')].
      exists name'. destruct Hk as [-> _]. done.
    + split; [by exists name'|by exists more].
Qed.

(** ** The dispatcher writes nothing *)

(** X4. The dispatcher reads [_events] and the three lists and writes
    nothing: when the callables it calls leave the objects as they are, so
    does the dispatch, whatever its outcome, and every hook list is after
    the dispatch what it was before. *)
Theorem dispatcher_writes_nothing
    (invoke : ref → args → state → res value) self f a st :
  (∀ fn a' s, keeps_objects s (invoke fn a' s)) →
  keeps_objects st (calls_subs invoke self f a st).2
  ∧ ∀ ev k,
      hooks (state_after (calls_subs invoke self f a st).2 st) ev k
      = hooks st ev k.
Proof.
  intros Hinvoke.
  pose proof (calls_subs_keeps invoke Hinvoke self f a st) as Hk.
  split; [done|]. intros ev k.
  destruct (calls_subs invoke self f a st).2; simpl in *;
    by rewrite ?(same_objects_hooks st).
Qed.

(** ** Registrations on different lists *)

Lemma decorator_for_ok k ev f st rec l :
  _events st !! ev = Some rec →
  heap st !! list_ref k rec = Some (PyList l) →
  decorator_for k ev f st
  = Ok f (set_heap st (<[list_ref k rec := PyList (l ++ [f])]> (heap st))).
Proof.
  intros Hrec Hl. rewrite decorator_for_unfold, Hrec.
  unfold list_append. by rewrite Hl.
Qed.

(** X6. Two registrations that append to different lists (of one event or
    of two) can be made in either order: both succeed and the two orders
    leave the same state. *)
Theorem registrations_commute k1 ev1 f l1 k2 ev2 g l2 st :
  wf st →
  hooks st ev1 k1 = Some l1 →
  hooks st ev2 k2 = Some l2 →
  (ev1, k1) ≠ (ev2, k2) →
  ∃ s1 s2 s12,
    decorator_for k1 ev1 f st = Ok f s1
    ∧ decorator_for k2 ev2 g s1 = Ok g s12
    ∧ decorator_for k2 ev2 g st = Ok g s2
    ∧ decorator_for k1 ev1 f s2 = Ok f s12
    ∧ hooks s12 ev1 k1 = Some (l1 ++ [f])
    ∧ hooks s12 ev2 k2 = Some (l2 ++ [g]).
Proof.
  intros Hwf H1 H2 Hne.
  apply hooks_Some in H1 as (rec1 & Hrec1 & H1).
  apply hooks_Some in H2 as (rec2 & Hrec2 & H2).
  apply list_items_Some in H1. apply list_items_Some in H2.
  set (r1 := list_ref k1 rec1) in *. set (r2 := list_ref k2 rec2) in *.
  assert (r1 ≠ r2) as Hr.
  { intros Heq. apply Hne.
    destruct (wf_sep st Hwf ev1 ev2 rec1 rec2 k1 k2 Hrec1 Hrec2 Heq).
    congruence. }
  set (s1 := set_heap st (<[r1 := PyList (l1 ++ [f])]> (heap st))).
  set (s2 := set_heap st (<[r2 := PyList (l2 ++ [g])]> (heap st))).
  set (s12 := set_heap st (<[r2 := PyList (l2 ++ [g])]>
                             (<[r1 := PyList (l1 ++ [f])]> (heap st)))).
  exists s1, s2, s12. split_and!.
  - by apply decorator_for_ok.
  - rewrite (decorator_for_ok k2 ev2 g s1 rec2 l2); [done|done|].
    simpl. by rewrite lookup_insert_ne.
  - by apply decorator_for_ok.
  - rewrite (decorator_for_ok k1 ev1 f s2 rec1 l1); [|done|].
    + unfold s12, s2, set_heap; simpl. f_equal. f_equal.
      by apply insert_insert_ne.
    + simpl. by rewrite lookup_insert_ne.
  - unfold hooks; simpl. rewrite Hrec1; simpl. apply list_items_Some; simpl.
    fold r1. rewrite lookup_insert_ne by done. apply lookup_insert_eq.
  - unfold hooks; simpl. rewrite Hrec2; simpl. apply list_items_Some; simpl.
    fold r2. apply lookup_insert_eq.
Qed.

(** ** An event without hooks *)




(** ** Every dispatch, whatever its outcome *)

(** X1. The calls of a dispatch, whatever the hooks and the body do, have
    one of three shapes: some first conditions; or all conditions and some
    first before-hooks; or all conditions, all before-hooks, the body and
    some first after-hooks.  Each list is gone through in its order, no
    phase starts before the one before it is through, the body is called
    at most once, and every call is made on the arguments of the
    dispatch. *)
Theorem dispatch_order n ev f cs bs afs a st :
  is_event st ev f →
  hooks st ev Condition = Some cs →
  hooks st ev Before = Some bs →
  hooks st ev After = Some afs →
  (∃ cs', cs' `prefix_of` cs
     ∧ (dispatch n ev a st).1 = calls InCondition a cs')
  ∨ (∃ bs', bs' `prefix_of` bs
     ∧ (dispatch n ev a st).1
       = calls InCondition a cs ++ calls InBefore a bs')
  ∨ (∃ afs', afs' `prefix_of` afs
     ∧ (dispatch n ev a st).1
       = calls InCondition a cs ++ calls InBefore a bs
           ++ Called InBody f a :: calls InAfter a afs').
Proof.
  intros Hev Hc Hb Ha.
  rewrite (dispatch_unfold n ev f cs bs afs) by done.
  destruct (for_conditions_prefix (call n) a cs st) as (cs' & Hcs' & Ht1).
  destruct (for_conditions (call n) cs a st) as [t1 [[] st1| |]] eqn:H1;
    simpl in Ht1; try (left; exists cs'; by split).
  apply for_conditions_true_inv in H1. clear Ht1. subst t1.
  destruct (for_subs_prefix (call n) InBefore a bs st1) as (bs' & Hbs' & Ht2).
  destruct (for_subs (call n) InBefore bs a st1) as [t2 [[] st2| |]] eqn:H2;
    simpl in Ht2; try (right; left; exists bs'; split; [done|by rewrite Ht2]).
  apply for_subs_ok_inv in H2. clear Ht2. subst t2.
  right; right.
  destruct (call n f a st2) as [r st3| |];
    try (exists []; split; [apply prefix_nil|done]).
  destruct (for_subs_prefix (call n) InAfter a afs st3) as (afs' & Hafs' & Ht4).
  destruct (for_subs (call n) InAfter afs a st3) as [t4 [[] st4| |]];
    simpl in Ht4; exists afs'; split; try done; by rewrite Ht4.
Qed.

Lemma for_conditions_err_inv n a cs st t e st' :
  for_conditions (call n) cs a st = (t, Err e st') →
  ∃ pre c s0,
    t = calls InCondition a (pre ++ [c])
    ∧ same_objects st s0
    ∧ call n c a s0 = Err e st'.
Proof.
  revert st t. induction cs as [|c cs IH]; intros st t; simpl; [done|].
  unfold_M. destruct (call n c a st) as [v st1|e1 st1|] eqn:Hc; try done.
  - destruct (truthy st1 v); simpl; [|done].
    destruct (for_conditions (call n) cs a st1) as [t' r] eqn:Hrest.
    intros [= <- ->].
    destruct (IH st1 t' Hrest) as (pre & c' & s0 & -> & Hs0 & Hc').
    exists (c :: pre), c', s0. split_and!; try done.
    eapply same_objects_trans; [|done]. by eapply call_ok_same.
  - intros [= <- <- <-]. exists [], c, st. by split_and!.
Qed.

Lemma for_subs_err_inv n p a subs st t e st' :
  for_subs (call n) p subs a st = (t, Err e st') →
  ∃ pre s s0,
    t = calls p a (pre ++ [s])
    ∧ same_objects st s0
    ∧ call n s a s0 = Err e st'.
Proof.
  revert st t. induction subs as [|s subs IH]; intros st t; simpl; [done|].
  unfold_M. destruct (call n s a st) as [v st1|e1 st1|] eqn:Hs; try done.
  - destruct (for_subs (call n) p subs a st1) as [t' r] eqn:Hrest.
    intros [= <- ->].
    destruct (IH st1 t' Hrest) as (pre & s' & s0 & -> & Hs0 & Hs').
    exists (s :: pre), s', s0. split_and!; try done.
    eapply same_objects_trans; [|done]. by eapply call_ok_same.
  - intros [= <- <- <-]. exists [], s, st. by split_and!.
Qed.

Lemma for_conditions_ok_same n a cs st t b st' :
  for_conditions (call n) cs a st = (t, Ok b st') → same_objects st st'.
Proof.
  intros H. pose proof (for_conditions_keeps (call n) (call_keeps n) cs a st).
  by rewrite H in *.
Qed.

Lemma for_subs_ok_same n p a subs st t u st' :
  for_subs (call n) p subs a st = (t, Ok u st') → same_objects st st'.
Proof.
  intros H. pose proof (for_subs_keeps (call n) (call_keeps n) p subs a st).
  by rewrite H in *.
Qed.

(** X2. Between its calls the dispatcher raises nothing of its own in
    the phases of the before-hooks, the body and the after-hooks.  When a
    dispatch of an event that has its record ends with an exception, it
    made at least one call, and when the last call it made was the call of
    a before-hook, of the body or of an after-hook, that call raised the
    exception, and the state of the outcome is the state that call
    left. *)
Theorem dispatch_exception_origin n ev f cs bs afs a st t e st' :
  is_event st ev f →
  hooks st ev Condition = Some cs →
  hooks st ev Before = Some bs →
  hooks st ev After = Some afs →
  dispatch n ev a st = (t, Err e st') →
  ∃ t0 p c,
    t = t0 ++ [Called p c a]
    ∧ (p ≠ InCondition →
       ∃ s0, same_objects st s0 ∧ call n c a s0 = Err e st').
Proof.
  intros Hev Hc Hb Ha.
  rewrite (dispatch_unfold n ev f cs bs afs) by done.
  destruct (for_conditions (call n) cs a st) as [t1 [[] st1| |]] eqn:H1;
    try done.
  - pose proof (for_conditions_ok_same _ _ _ _ _ _ _ H1) as S1.
    destruct (for_subs (call n) InBefore bs a st1) as [t2 [[] st2| |]] eqn:H2;
      try done.
    + pose proof (for_subs_ok_same _ _ _ _ _ _ _ _ H2) as S2.
      destruct (call n f a st2) as [r st3| |] eqn:H3; try done.
      * pose proof (call_ok_same _ _ _ _ _ _ H3) as S3.
        destruct (for_subs (call n) InAfter afs a st3) as [t4 [[] st4| |]]
          eqn:H4; try done.
        intros [= <- <- <-].
        apply for_subs_err_inv in H4 as (pre & s & s0 & -> & Hs0 & Hs).
        exists (t1 ++ t2 ++ Called InBody f a :: calls InAfter a pre),
          InAfter, s.
        split.
        -- rewrite calls_app. by rewrite <- !app_assoc, <- app_comm_cons.
        -- intros _. exists s0. split; [|done].
           eauto using same_objects_trans.
      * intros [= <- <- <-]. exists (t1 ++ t2), InBody, f.
        split.
        -- by rewrite <- app_assoc.
        -- intros _. exists st2. split; [|done].
           eauto using same_objects_trans.
    + intros [= <- <- <-].
      apply for_subs_err_inv in H2 as (pre & s & s0 & -> & Hs0 & Hs).
      exists (t1 ++ calls InBefore a pre), InBefore, s.
      split.
      * rewrite calls_app. by rewrite <- app_assoc.
      * intros _. exists s0. split; [|done].
        eauto using same_objects_trans.
  - intros [= <- <- <-].
    apply for_conditions_err_inv in H1 as (pre & c & s0 & -> & Hs0 & Hc').
    exists (calls InCondition a pre), InCondition, c.
    split; [by rewrite calls_app|]. done.
Qed.

(** X3. No hook has a say in what an event returns.  A dispatch that
    returns [r] either was vetoed, having called conditions only, and [r]
    is [None]; or it made every call of the three lists and of the body,
    and [r] is what the body returned when the dispatcher called it. *)
Theorem dispatch_result_origin n ev f cs bs afs a st t r st' :
  is_event st ev f →
  hooks st ev Condition = Some cs →
  hooks st ev Before = Some bs →
  hooks st ev After = Some afs →
  dispatch n ev a st = (t, Ok r st') →
  (r = VNone ∧ ∃ cs', cs' `prefix_of` cs ∧ t = calls InCondition a cs')
  ∨ (t = calls InCondition a cs ++ calls InBefore a bs
           ++ Called InBody f a :: calls InAfter a afs
     ∧ ∃ s0 s1, same_objects st s0 ∧ call n f a s0 = Ok r s1).
Proof.
  intros Hev Hc Hb Ha.
  rewrite (dispatch_unfold n ev f cs bs afs) by done.
  destruct (for_conditions_prefix (call n) a cs st) as (cs' & Hcs' & Ht1).
  destruct (for_conditions (call n) cs a st) as [t1 [[] st1| |]] eqn:H1;
    simpl in Ht1; try done.
  - pose proof (for_conditions_ok_same _ _ _ _ _ _ _ H1) as S1.
    apply for_conditions_true_inv in H1. clear Ht1. subst t1.
    destruct (for_subs (call n) InBefore bs a st1) as [t2 [[] st2| |]] eqn:H2;
      try done.
    pose proof (for_subs_ok_same _ _ _ _ _ _ _ _ H2) as S2.
    apply for_subs_ok_inv in H2. subst t2.
    destruct (call n f a st2) as [r' st3| |] eqn:H3; try done.
    destruct (for_subs (call n) InAfter afs a st3) as [t4 [[] st4| |]] eqn:H4;
      try done.
    apply for_subs_ok_inv in H4. subst t4.
    intros [= <- <- <-]. right. split; [done|].
    exists st2, st3. split; [|done]. eauto using same_objects_trans.
  - intros [= <- <- <-]. left. split; [done|]. by exists cs'.
Qed.

End Properties.

(** * The host program *)

Import Demo.

Lemma first_unused_fresh n p X : first_unused n p X ∉ X.
Proof.
  revert p. induction n as [|n IH]; intros p; simpl; [apply is_fresh|].
  by destruct (decide (p ∈ X)).
Qed.

Lemma new_id_fresh X : new_id X ∉ X.
Proof. apply first_unused_fresh. Qed.

Lemma st_defs_wf : wf st_defs.
Proof. repeat apply (def_wf _ new_id_fresh). apply initial_wf. Qed.

Lemma st_ev_wf : wf st_ev.
Proof. apply (event_wf _ new_id_fresh), st_defs_wf. Qed.

Lemma st_ev2_wf : wf st_ev2.
Proof. apply (event_wf _ new_id_fresh), st_ev_wf. Qed.

Lemma st_hooked_wf : wf st_hooked.
Proof.
  apply (register_wf Condition ev (Some is_even_fn) st_after).
  apply (register_wf After ev (Some count_fn) st_before).
  apply (register_wf Before ev (Some count_fn) st_ev2).
  apply st_ev2_wf.
Qed.

Lemma st_ev2_unreferenced : ¬ referenced st_ev2_before ev2.
Proof. apply (bool_decide_eq_false_1 _). vm_compute. reflexivity. Qed.

Lemma st_hooked_ev2_unreferenced : ¬ referenced st_hooked ev2.
Proof. apply (bool_decide_eq_false_1 _). vm_compute. reflexivity. Qed.

Lemma st_defs_reachable : reachable new_id st_defs.
Proof. repeat apply reachable_def. apply reachable_initial. Qed.

Lemma st_hooked_reachable : reachable new_id st_hooked.
Proof.
  apply (reachable_register new_id Condition ev (Some is_even_fn) st_after).
  apply (reachable_register new_id After ev (Some count_fn) st_before).
  apply (reachable_register new_id Before ev (Some count_fn) st_ev2).
  apply (reachable_event new_id foo_fn st_ev).
  apply (reachable_event new_id foo_fn st_defs).
  apply st_defs_reachable.
Qed.

Lemma st_stale_reachable : reachable new_id st_stale.
Proof.
  apply (reachable_reclaim new_id ev2 st_ev2_before);
    [|apply st_ev2_unreferenced].
  apply (reachable_register new_id Before ev2 (Some count_fn) st_ev2).
  apply (reachable_event new_id foo_fn st_ev).
  apply (reachable_event new_id foo_fn st_defs).
  apply st_defs_reachable.
Qed.

Lemma st_bar_reachable : reachable new_id st_bar.
Proof. apply (reachable_def new_id "bar" count), st_stale_reachable. Qed.

Lemma st_partial_reachable : reachable new_id st_partial.
Proof.
  apply (reachable_callable_object new_id count), st_hooked_reachable.
Qed.

(** ** The theorems at work *)

Lemma condition_veto_witness :
  dispatch 1 ev args_2_15 st_vetoed
  = (calls InCondition args_2_15 [is_even_fn; always_false_fn],
     Ok VNone st_vetoed)
  ∧ ∀ m, (1 < m)%nat → call m ev args_2_15 st_vetoed = Ok VNone st_vetoed.
Proof.
  apply (condition_veto 1 ev foo_fn [is_even_fn] always_false_fn []
           [count_fn] [count_fn] args_2_15 st_vetoed st_vetoed
           (VBool false) st_vetoed).
  - exists "foo"%string. vm_compute; reflexivity.
  - vm_compute; reflexivity.
  - vm_compute; reflexivity.
  - vm_compute; reflexivity.
  - apply (all_pass_cons _ _ _ _ _ (VBool true) st_vetoed);
      [vm_compute; reflexivity | vm_compute; reflexivity | apply all_pass_nil].
  - vm_compute; reflexivity.
  - vm_compute; reflexivity.
Defined.

Lemma dispatch_runs_everything_witness :
  dispatch 1 ev args_2_15 st_hooked
  = (calls InCondition args_2_15 [is_even_fn]
       ++ calls InBefore args_2_15 [count_fn]
       ++ Called InBody foo_fn args_2_15 :: calls InAfter args_2_15 [count_fn],
     Ok (VInt 19) (set_world st_hooked 52%Z))
  ∧ ∀ m, (1 < m)%nat →
      call m ev args_2_15 st_hooked = Ok (VInt 19) (set_world st_hooked 52%Z).
Proof.
  apply (dispatch_runs_everything 1 ev foo_fn [is_even_fn] [count_fn]
           [count_fn] args_2_15 st_hooked st_hooked
           (set_world st_hooked 51%Z) (VInt 19) (set_world st_hooked 51%Z)
           (set_world st_hooked 52%Z)).
  - exists "foo"%string. vm_compute; reflexivity.
  - vm_compute; reflexivity.
  - vm_compute; reflexivity.
  - vm_compute; reflexivity.
  - apply (all_pass_cons _ _ _ _ _ (VBool true) st_hooked);
      [vm_compute; reflexivity | vm_compute; reflexivity | apply all_pass_nil].
  - apply (all_return_cons _ _ _ _ _ VNone (set_world st_hooked 51%Z));
      [vm_compute; reflexivity | apply all_return_nil].
  - vm_compute; reflexivity.
  - apply (all_return_cons _ _ _ _ _ VNone (set_world st_hooked 52%Z));
      [vm_compute; reflexivity | apply all_return_nil].
Defined.

Lemma exceptions_propagate_witness :
  dispatch 1 ev args_2_15 st_failing
  = (calls InCondition args_2_15 [is_even_fn]
       ++ calls InBefore args_2_15 [count_fn]
       ++ Called InBody foo_fn args_2_15
       :: calls InAfter args_2_15 [count_fn; failing_fn],
     Err (HostError (VStr "failing")) (set_world st_failing 52%Z)).
Proof.
  destruct (exceptions_propagate 1 ev foo_fn [is_even_fn] [count_fn]
              [count_fn; failing_fn] args_2_15 st_failing
              (HostError (VStr "failing")))
    as (_ & _ & _ & Hafter).
  - exists "foo"%string. vm_compute; reflexivity.
  - vm_compute; reflexivity.
  - vm_compute; reflexivity.
  - vm_compute; reflexivity.
  - apply (Hafter st_failing (set_world st_failing 51%Z) (VInt 19)
             (set_world st_failing 51%Z) [count_fn] failing_fn []
             (set_world st_failing 52%Z) (set_world st_failing 52%Z)).
    + apply (all_pass_cons _ _ _ _ _ (VBool true) st_failing);
        [vm_compute; reflexivity | vm_compute; reflexivity | apply all_pass_nil].
    + apply (all_return_cons _ _ _ _ _ VNone (set_world st_failing 51%Z));
        [vm_compute; reflexivity | apply all_return_nil].
    + vm_compute; reflexivity.
    + vm_compute; reflexivity.
    + apply (all_return_cons _ _ _ _ _ VNone (set_world st_failing 52%Z));
        [vm_compute; reflexivity | apply all_return_nil].
    + vm_compute; reflexivity.
Defined.

Lemma unregistered_target_rejected_witness :
  heap st_hooked !! count_fn = Some (Function (Some "count") count)
  ∧ decorator_for Before count_fn is_even_fn st_hooked
    = Err (EventNotRegistered (not_registered_msg "count")) st_hooked
  ∧ register Before count_fn (Some is_even_fn) st_hooked
    = Err (EventNotRegistered (not_registered_msg "count")) st_hooked.
Proof.
  split; [vm_compute; reflexivity|].
  apply (unregistered_target_rejected Before count_fn
           (Function (Some "count") count) "count" is_even_fn st_hooked).
  - vm_compute; reflexivity.
  - reflexivity.
  - vm_compute; reflexivity.
Defined.

(** C3 as it is worded does not hold.  [bar] is a function that was never
    promoted; it was made after the wrapper [ev2] had been reclaimed and
    has the identity [ev2] had, under which [_events] still holds the
    record of [ev2]: [run_before(bar, first_is_even)] raises nothing and
    appends to that record.  [p] is a callable without [__name__] that
    was never promoted: each operation gives [AttributeError]. *)
Lemma unregistered_target_accepted :
  reachable new_id st_bar
  ∧ heap st_bar !! bar_fn = Some (Function (Some "bar") count)
  ∧ hooks st_bar bar_fn Before = Some [count_fn]
  ∧ (∃ st', register Before bar_fn (Some is_even_fn) st_bar
            = Ok (decorator_for Before bar_fn) st'
            ∧ hooks st' bar_fn Before = Some [count_fn; is_even_fn])
  ∧ (∀ e st', register Before bar_fn (Some is_even_fn) st_bar ≠ Err e st')
  ∧ reachable new_id st_partial
  ∧ heap st_partial !! partial_fn = Some (Function None count)
  ∧ _events st_partial !! partial_fn = None
  ∧ ∀ k, register k partial_fn (Some is_even_fn) st_partial
         = Err AttributeError st_partial.
Proof.
  split_and!.
  - apply st_bar_reachable.
  - vm_compute; reflexivity.
  - vm_compute; reflexivity.
  - eexists. split; vm_compute; reflexivity.
  - intros e st'. vm_compute. discriminate.
  - apply st_partial_reachable.
  - vm_compute; reflexivity.
  - vm_compute; reflexivity.
  - intros []; vm_compute; reflexivity.
Qed.

Lemma partial_application_never_raises_witness :
  register After failing_fn None st_hooked
  = Ok (decorator_for After failing_fn) st_hooked
  ∧ decorator_for After failing_fn count_fn st_hooked
    = Err (EventNotRegistered (not_registered_msg "failing")) st_hooked.
Proof.
  destruct (partial_application_never_raises After failing_fn st_hooked)
    as [Hpartial Hlater].
  split; [exact Hpartial|].
  apply (Hlater (Function (Some "failing") failing) "failing" count_fn).
  - vm_compute; reflexivity.
  - reflexivity.
  - vm_compute; reflexivity.
Defined.

(** C10 as it is worded does not hold.  With [bar] and [p] as above, the
    partial form raises nothing, and the decorator it returns, applied to
    a function, does not raise [EventNotRegistered] either: for [bar] it
    appends to the record [ev2] left, for [p] it gives [AttributeError]. *)
Lemma decorator_for_unpromoted_not_rejected :
  heap st_bar !! bar_fn = Some (Function (Some "bar") count)
  ∧ register Before bar_fn None st_bar = Ok (decorator_for Before bar_fn) st_bar
  ∧ (∃ st', decorator_for Before bar_fn is_even_fn st_bar = Ok is_even_fn st'
            ∧ hooks st' bar_fn Before = Some [count_fn; is_even_fn])
  ∧ heap st_partial !! partial_fn = Some (Function None count)
  ∧ register Before partial_fn None st_partial
    = Ok (decorator_for Before partial_fn) st_partial
  ∧ decorator_for Before partial_fn is_even_fn st_partial
    = Err AttributeError st_partial.
Proof.
  split_and!; try (vm_compute; reflexivity).
  eexists. split; vm_compute; reflexivity.
Qed.

Lemma registration_forms_witness :
  ∃ st',
    register Condition ev None st_after = Ok (decorator_for Condition ev) st_after
    ∧ decorator_for Condition ev is_even_fn st_after = Ok is_even_fn st'
    ∧ register Condition ev (Some is_even_fn) st_after
      = Ok (decorator_for Condition ev) st'
    ∧ hooks st' ev Condition = Some ([] ++ [is_even_fn])
    ∧ ∀ g, ∃ st'', decorator_for Condition ev g st' = Ok g st''
                   ∧ hooks st'' ev Condition = Some ([] ++ [is_even_fn; g]).
Proof.
  apply (registration_forms Condition ev is_even_fn [] st_after).
  - apply (register_wf After ev (Some count_fn) st_before).
    apply (register_wf Before ev (Some count_fn) st_ev2).
    apply st_ev2_wf.
  - vm_compute; reflexivity.
Defined.

Lemma registration_frame_witness :
  ∃ st',
    decorator_for Before ev count_fn st_ev2 = Ok count_fn st'
    ∧ register Before ev (Some count_fn) st_ev2
      = Ok (decorator_for Before ev) st'
    ∧ hooks st' ev Before = Some ([] ++ [count_fn])
    ∧ (∀ k', k' ≠ Before → hooks st' ev k' = hooks st_ev2 ev k')
    ∧ (∀ k', hooks st' ev2 k' = hooks st_ev2 ev2 k').
Proof.
  apply (registration_frame Before ev ev2 count_fn [] st_ev2).
  - apply st_ev2_wf.
  - vm_compute. discriminate.
  - vm_compute; reflexivity.
Defined.



Lemma duplicate_registration_witness :
  ∃ st1 st2,
    decorator_for Before ev is_even_fn st_hooked = Ok is_even_fn st1
    ∧ decorator_for Before ev is_even_fn st1 = Ok is_even_fn st2
    ∧ hooks st2 ev Before = Some ([count_fn] ++ [is_even_fn; is_even_fn])
    ∧ ∃ t,
        dispatch 1 ev args_2_15 st_twice
        = (t, Ok (VInt 19) (set_world st_twice 52%Z))
        ∧ callees InBefore t = [count_fn] ++ [is_even_fn; is_even_fn] ++ [].
Proof.
  destruct (duplicate_registration Before ev foo_fn is_even_fn [count_fn]
              st_hooked)
    as (st1 & st2 & Hd1 & Hd2 & _ & Hl2 & _ & _ & Hdispatch).
  - apply st_hooked_wf.
  - exists "foo"%string. vm_compute; reflexivity.
  - vm_compute; reflexivity.
  - exists st1, st2. split_and!; try assumption.
    destruct (Hdispatch 1 args_2_15 st_twice [] [is_even_fn]
                [count_fn; is_even_fn; is_even_fn] [count_fn])
      as [_ Hall].
    + exists "foo"%string. vm_compute; reflexivity.
    + vm_compute; reflexivity.
    + vm_compute; reflexivity.
    + vm_compute; reflexivity.
    + vm_compute; reflexivity.
    + apply (Hall st_twice (set_world st_twice 51%Z) (VInt 19)
               (set_world st_twice 51%Z) (set_world st_twice 52%Z)).
      * apply (all_pass_cons _ _ _ _ _ (VBool true) st_twice);
          [vm_compute; reflexivity | vm_compute; reflexivity
          | apply all_pass_nil].
      * apply (all_return_cons _ _ _ _ _ VNone (set_world st_twice 51%Z));
          [vm_compute; reflexivity|].
        apply (all_return_cons _ _ _ _ _ (VBool true)
                 (set_world st_twice 51%Z)); [vm_compute; reflexivity|].
        apply (all_return_cons _ _ _ _ _ (VBool true)
                 (set_world st_twice 51%Z)); [vm_compute; reflexivity|].
        apply all_return_nil.
      * vm_compute; reflexivity.
      * apply (all_return_cons _ _ _ _ _ VNone (set_world st_twice 52%Z));
          [vm_compute; reflexivity | apply all_return_nil].
Defined.

(** C5 as it is worded does not hold for every dispatch.  [count] is
    registered twice to run before [ev], and [always_false] is a
    condition of [ev]: the dispatch calls [always_false] and nothing
    else, so [count] is invoked not twice but never. *)
Lemma duplicate_not_invoked :
  decorator_for Before ev count_fn st_ev = Ok count_fn st_dup1
  ∧ decorator_for Before ev count_fn st_dup1 = Ok count_fn st_dup
  ∧ hooks st_dup_vetoed ev Before = Some [count_fn; count_fn]
  ∧ dispatch 1 ev args_2_15 st_dup_vetoed
    = ([Called InCondition always_false_fn args_2_15], Ok VNone st_dup_vetoed)
  ∧ callees InBefore (dispatch 1 ev args_2_15 st_dup_vetoed).1 = [].
Proof. split_and!; vm_compute; reflexivity. Qed.

Lemma voidargs_discards_witness :
  call 2 voided_count args_2_15 adapted.2
  = Ok VNone (set_world adapted.2 51%Z)
  ∧ dispatch 2 ev args_2_15 st_adapted
    = (calls InCondition args_2_15 ([is_even_fn] ++ [voided_count]),
       Ok VNone (set_world st_adapted 51%Z)).
Proof.
  destruct (voidargs_discards new_id new_id_fresh count_fn st_hooked
              voided_count adapted.2)
    as (_ & _ & _ & _ & Hcall & _ & Hveto).
  - vm_compute; reflexivity.
  - split.
    + rewrite (Hcall 1 args_2_15 adapted.2); vm_compute; reflexivity.
    + apply (Hveto 1 ev foo_fn [is_even_fn] [] [count_fn] [count_fn]
               args_2_15 st_adapted st_adapted VNone
               (set_world st_adapted 51%Z)).
      * vm_compute; reflexivity.
      * exists "foo"%string. vm_compute; reflexivity.
      * vm_compute; reflexivity.
      * vm_compute; reflexivity.
      * vm_compute; reflexivity.
      * apply (all_pass_cons _ _ _ _ _ (VBool true) st_adapted);
          [vm_compute; reflexivity | vm_compute; reflexivity | apply all_pass_nil].
      * vm_compute; reflexivity.
Defined.

(** ** The project's tests *)

(** [test_condition]: [set_x_to_arg(3)] leaves [x], [set_x_to_arg(4)] sets it. *)
Example test_condition_odd :
  call 2 tc_event.1 (Args [VInt 3] []) tc_state = Ok VNone tc_state.
Proof. vm_compute. reflexivity. Qed.

Example test_condition_even :
  call 2 tc_event.1 (Args [VInt 4] []) tc_state
  = Ok VNone (set_world tc_state 4%Z).
Proof. vm_compute. reflexivity. Qed.

(** [test_condition]: [return5()] is [5], and [None] once [always_false] is
    a condition. *)
Example test_return5 :
  call 2 tr_event.1 no_args tr_event.2 = Ok (VInt 5) tr_event.2
  ∧ call 2 tr_event.1 no_args tr_vetoed = Ok VNone tr_vetoed.
Proof. split; vm_compute; reflexivity. Qed.

(** [test_run_before_and_after]: with [increment] after, [x] goes from 5 to
    6; with [increment] before as well, from 5 to 1. *)
Example test_order :
  call 2 to_event.1 no_args to_after = Ok VNone (set_world to_after 6%Z)
  ∧ call 2 to_event.1 no_args to_both = Ok VNone (set_world to_both 1%Z).
Proof. split; vm_compute; reflexivity. Qed.

(** [foo(1, y=15)] is vetoed by [first_is_even], [foo(2, y=15)] is [19]. *)
Example test_is_even_veto :
  call 2 ev args_1_15 st_hooked = Ok VNone st_hooked
  ∧ call 2 ev args_2_15 st_hooked = Ok (VInt 19) (set_world st_hooked 52%Z).
Proof. split; vm_compute; reflexivity. Qed.

(** [test_add_event]: the record after the registrations of the test, and
    the rejection of a function that is not an event. *)
Example test_add_event :
  hooks st_hooked ev Before = Some [count_fn]
  ∧ hooks st_hooked ev After = Some [count_fn]
  ∧ hooks st_hooked ev Condition = Some [is_even_fn]
  ∧ (∀ k, hooks st_hooked ev2 k = Some [])
  ∧ run_before count_fn (Some is_even_fn) st_hooked
    = Err (EventNotRegistered (not_registered_msg "count")) st_hooked.
Proof. split_and!; try (vm_compute; reflexivity). by intros []. Qed.

(** [first_is_even] registered twice to run before [ev], behind [count]:
    [foo(2, y=15)] calls it twice, in the two places, and is [19]. *)
Example test_registered_twice :
  dispatch 1 ev args_2_15 st_twice
  = (calls InCondition args_2_15 [is_even_fn]
       ++ calls InBefore args_2_15 [count_fn; is_even_fn; is_even_fn]
       ++ Called InBody foo_fn args_2_15 :: calls InAfter args_2_15 [count_fn],
     Ok (VInt 19) (set_world st_twice 52%Z)).
Proof. vm_compute. reflexivity. Qed.

(** ** The further properties at work *)

Lemma dispatch_order_witness :
  (∃ cs', cs' `prefix_of` [is_even_fn]
     ∧ (dispatch 1 ev args_2_15 st_failing).1
       = calls InCondition args_2_15 cs')
  ∨ (∃ bs', bs' `prefix_of` [count_fn]
     ∧ (dispatch 1 ev args_2_15 st_failing).1
       = calls InCondition args_2_15 [is_even_fn]
           ++ calls InBefore args_2_15 bs')
  ∨ (∃ afs', afs' `prefix_of` [count_fn; failing_fn]
     ∧ (dispatch 1 ev args_2_15 st_failing).1
       = calls InCondition args_2_15 [is_even_fn]
           ++ calls InBefore args_2_15 [count_fn]
           ++ Called InBody foo_fn args_2_15
           :: calls InAfter args_2_15 afs').
Proof.
  apply (dispatch_order 1 ev foo_fn [is_even_fn] [count_fn]
           [count_fn; failing_fn] args_2_15 st_failing).
  - exists "foo"%string. vm_compute; reflexivity.
  - vm_compute; reflexivity.
  - vm_compute; reflexivity.
  - vm_compute; reflexivity.
Defined.

Lemma dispatch_exception_origin_witness :
  ∃ t0 p c,
    calls InCondition args_2_15 [is_even_fn]
      ++ calls InBefore args_2_15 [count_fn]
      ++ Called InBody foo_fn args_2_15
      :: calls InAfter args_2_15 [count_fn; failing_fn]
    = t0 ++ [Called p c args_2_15]
    ∧ (p ≠ InCondition →
       ∃ s0, same_objects st_failing s0
             ∧ call 1 c args_2_15 s0
               = Err (HostError (VStr "failing")) (set_world st_failing 52%Z)).
Proof.
  apply (dispatch_exception_origin 1 ev foo_fn [is_even_fn] [count_fn]
           [count_fn; failing_fn] args_2_15 st_failing).
  - exists "foo"%string. vm_compute; reflexivity.
  - vm_compute; reflexivity.
  - vm_compute; reflexivity.
  - vm_compute; reflexivity.
  - vm_compute; reflexivity.
Defined.

Lemma dispatch_result_origin_witness :
  (VInt 19 = VNone
   ∧ ∃ cs', cs' `prefix_of` [is_even_fn]
       ∧ calls InCondition args_2_15 [is_even_fn]
           ++ calls InBefore args_2_15 [count_fn]
           ++ Called InBody foo_fn args_2_15
           :: calls InAfter args_2_15 [count_fn]
         = calls InCondition args_2_15 cs')
  ∨ (calls InCondition args_2_15 [is_even_fn]
       ++ calls InBefore args_2_15 [count_fn]
       ++ Called InBody foo_fn args_2_15 :: calls InAfter args_2_15 [count_fn]
     = calls InCondition args_2_15 [is_even_fn]
         ++ calls InBefore args_2_15 [count_fn]
         ++ Called InBody foo_fn args_2_15
         :: calls InAfter args_2_15 [count_fn]
     ∧ ∃ s0 s1, same_objects st_hooked s0
                ∧ call 1 foo_fn args_2_15 s0 = Ok (VInt 19) s1).
Proof.
  apply (dispatch_result_origin 1 ev foo_fn [is_even_fn] [count_fn]
           [count_fn] args_2_15 st_hooked _ (VInt 19)
           (set_world st_hooked 52%Z)).
  - exists "foo"%string. vm_compute; reflexivity.
  - vm_compute; reflexivity.
  - vm_compute; reflexivity.
  - vm_compute; reflexivity.
  - vm_compute; reflexivity.
Defined.

Lemma dispatcher_writes_nothing_witness :
  keeps_objects st_hooked
    (calls_subs (call 1) ev foo_fn args_2_15 st_hooked).2
  ∧ ∀ ev' k,
      hooks (state_after (calls_subs (call 1) ev foo_fn args_2_15 st_hooked).2
               st_hooked) ev' k
      = hooks st_hooked ev' k.
Proof.
  apply (dispatcher_writes_nothing (call 1) ev foo_fn args_2_15 st_hooked).
  apply (call_keeps 1).
Defined.

Lemma hooks_only_grow_witness :
  is_event st_hooked_more ev foo_fn
  ∧ ∃ more, hooks st_hooked_more ev Before = Some ([count_fn] ++ more).
Proof.
  apply (hooks_only_grow new_id new_id_fresh {[ev]} st_hooked st_hooked_more
           ev foo_fn Before [count_fn]).
  - apply st_hooked_wf.
  - apply elem_of_singleton. reflexivity.
  - exists "foo"%string. vm_compute; reflexivity.
  - apply (evolves_register new_id {[ev]} Before ev (Some is_even_fn)
             st_hooked st_hooked_again).
    apply (evolves_event new_id {[ev]} foo_fn st_hooked st_hooked_dropped).
    apply (evolves_reclaim new_id {[ev]} ev2 st_hooked st_hooked).
    + apply evolves_refl.
    + apply not_elem_of_singleton. vm_compute. discriminate.
    + apply st_hooked_ev2_unreferenced.
  - vm_compute; reflexivity.
Defined.

Lemma registrations_commute_witness :
  ∃ s1 s2 s12,
    decorator_for Before ev count_fn st_ev2 = Ok count_fn s1
    ∧ decorator_for After ev2 is_even_fn s1 = Ok is_even_fn s12
    ∧ decorator_for After ev2 is_even_fn st_ev2 = Ok is_even_fn s2
    ∧ decorator_for Before ev count_fn s2 = Ok count_fn s12
    ∧ hooks s12 ev Before = Some ([] ++ [count_fn])
    ∧ hooks s12 ev2 After = Some ([] ++ [is_even_fn]).
Proof.
  apply (registrations_commute Before ev count_fn [] After ev2 is_even_fn []
           st_ev2).
  - apply st_ev2_wf.
  - vm_compute; reflexivity.
  - vm_compute; reflexivity.
  - vm_compute. discriminate.
Defined.


(** ** The tests, for every argument and every value of [x] *)

(** X8. [test_condition], for every integer and not only [range(10)]:
    before [is_even] is registered [set_x_to_arg(n)] sets [x] to [n];
    once it is, [set_x_to_arg(n)] sets [x] to [n] when [n] is even and
    leaves [x] as it is when [n] is odd, and returns [None] either way. *)
Theorem test_condition_every_integer (n x : Z) :
  call 2 tc_event.1 (Args [VInt n] []) (set_world tc_event.2 x)
  = Ok VNone (set_world tc_event.2 n)
  ∧ call 2 tc_event.1 (Args [VInt n] []) (set_world tc_state x)
    = Ok VNone (set_world tc_state (if Z.even n then n else x)).
Proof.
  split.
  - vm_compute. reflexivity.
  - vm_compute. destruct n as [|[p|p|]|[p|p|]]; reflexivity.
Qed.

(** X9. [test_run_before_and_after], for every value of [x] and not only
    [5]: with [increment] registered after [zero_if_6], a call zeroes [x]
    if it is [6] and then adds one; with [increment] registered before as
    well, it adds one, zeroes the sum if it is [6], and adds one. *)
Theorem test_order_every_x (x : Z) :
  call 2 to_event.1 no_args (set_world to_after x)
  = Ok VNone (set_world to_after ((if Z.eqb x 6 then 0 else x) + 1)%Z)
  ∧ call 2 to_event.1 no_args (set_world to_both x)
    = Ok VNone
        (set_world to_both ((if Z.eqb (x + 1) 6 then 0 else x + 1) + 1)%Z).
Proof. split; vm_compute; reflexivity. Qed.
